(** * sdfx: natural cubic splines and the 3D development renderer

    A shallow embedding of two files of the repository:

    - the cubic-spline file of package [sdf] ([TriDiagonal],
      [CubicPolynomial], [CubicSpline], [CubicSplineSDF2], [CubicSpline2D]);
    - the 3D renderer of package [dev] ([renderer3.Render],
      [renderer3.samplePixel]).

    Numbers.  The Go code computes on [float64].  The properties below are
    stated in exact arithmetic, so a [float64] is modelled as a canonical
    rational [Qc]: equality is Leibniz equality, the field operations are
    total ([x / 0 = 0], never reached where the code guards its divisions)
    and every definition evaluates with [vm_compute].  Rounding, infinities
    and NaN are outside this model.

    Panics.  A Go [panic] (explicit, or the runtime's on a bad index or on
    closing a nil channel) is the [Panic] constructor of [result], carrying
    the message. *)

From Stdlib Require Import QArith Qcanon Lqa Lia ZArith String.
From stdpp Require Import base numbers list relations.

Open Scope Qc_scope.

(** ** Numbers *)

Notation "3" := (1 + 2) : Qc_scope.
Notation "4" := (2 + 2) : Qc_scope.
Notation "6" := (3 + 3) : Qc_scope.

#[global] Instance Qc_inhabited : Inhabited Qc := populate 0.

(** [math.Min] and [math.Max] on exact numbers. *)
Definition Qcmin (a b : Qc) : Qc := if decide (a ≤ b) then a else b.
Definition Qcmax (a b : Qc) : Qc := if decide (a ≤ b) then b else a.

(** [float64(i)] for an [int] [i]. *)
Definition float64 (i : Z) : Qc := Qc_of_Z i.

(** [int(t)] for a [float64] [t]: Go truncates towards zero. *)
Definition int (t : Qc) : Z := Z.quot (Qnum t) (Z.pos (Qden t)).

(** ** Panics *)

Inductive result (A : Type) : Type :=
| Ok (a : A)
| Panic (msg : string).
Arguments Ok {A} a.
Arguments Panic {A} msg.

#[global] Instance result_ret : MRet result := λ A a, Ok a.
#[global] Instance result_bind : MBind result := λ A B k r,
  match r with
  | Ok a => k a
  | Panic msg => Panic msg
  end.

Definition is_Ok {A} (r : result A) : Prop := ∃ a, r = Ok a.
Definition is_Panic {A} (r : result A) : Prop := ∃ msg, r = Panic msg.

(** [l[i]] where the index can be out of range at run time. *)
Definition index {A} (l : list A) (i : Z) : result A :=
  if decide (0 ≤ i)%Z then
    match l !! Z.to_nat i with
    | Some a => Ok a
    | None => Panic "index out of range"
    end
  else Panic "index out of range".

(** ** Vectors and boxes *)

Module V2.
Record t : Type := mk { X : Qc; Y : Qc }.
Definition zero : t := mk 0 0.
(** Modelled from the spec: the componentwise minimum of two points, part
    of the vector file of the package, which is not among the sources. *)
Definition Min (a b : t) : t := mk (Qcmin (X a) (X b)) (Qcmin (Y a) (Y b)).
(** Modelled from the spec: the componentwise maximum of two points, part
    of the vector file of the package, which is not among the sources. *)
Definition Max (a b : t) : t := mk (Qcmax (X a) (X b)) (Qcmax (Y a) (Y b)).
End V2.

Module V3.
Record t : Type := mk { X : Qc; Y : Qc; Z : Qc }.
Definition zero : t := mk 0 0 0.
End V3.

#[global] Instance V2_inhabited : Inhabited V2.t := populate V2.zero.
#[global] Instance V3_inhabited : Inhabited V3.t := populate V3.zero.

(** ** The tridiagonal solver *)

(** The elimination loop [for i := 1; i < n; i++], run over the indices
    [ix]; [cp] and [x] are the two work arrays. *)
Fixpoint elimination (m : list V3.t) (d : list Qc) (ix : list nat)
    (cp x : list Qc) : result (list Qc * list Qc) :=
  match ix with
  | [] => Ok (cp, x)
  | i :: ix =>
      let denom := V3.Y (m !!! i) - V3.X (m !!! i) * cp !!! (i - 1)%nat in
      if decide (denom = 0) then Panic "denom == 0" else
      let cp := <[i := V3.Z (m !!! i) / denom]> cp in
      let x := <[i := (d !!! i - V3.X (m !!! i) * x !!! (i - 1)%nat) / denom]> x in
      elimination m d ix cp x
  end.

(** The back substitution loop [for i := n - 2; i >= 0; i--], run over the
    indices [ix]. *)
Fixpoint back_substitution (cp : list Qc) (ix : list nat) (x : list Qc)
    : list Qc :=
  match ix with
  | [] => x
  | i :: ix =>
      back_substitution cp ix (<[i := x !!! i - cp !!! i * x !!! (i + 1)%nat]> x)
  end.

(** [TriDiagonal(m, d)].  With no rows, [m[0]] is the first index
    expression evaluated and the runtime panics on it; every other index
    is in range by the size check and the loop bounds. *)
Definition TriDiagonal (m : list V3.t) (d : list Qc) : result (list Qc) :=
  let n := length m in
  if decide (length d ≠ n) then Panic "bad sizes rows(m) != rows(d)" else
  m0 ← index m 0;
  mn ← index m (Z.of_nat n - 1);
  if decide (V3.X m0 ≠ 0 ∨ V3.Z mn ≠ 0)
  then Panic "bad values for tridiagonal matrix" else
  if decide (V3.Y m0 = 0) then Panic "m[0].Y == 0" else
  let cp := replicate n 0 in
  let x := replicate n 0 in
  let cp := <[0%nat := V3.Z m0 / V3.Y m0]> cp in
  let x := <[0%nat := d !!! 0%nat / V3.Y m0]> x in
  '(cp, x) ← elimination m d (seq 1 (n - 1)) cp x;
  Ok (back_substitution cp (reverse (seq 0 (n - 1))) x).

(** The quantities of the forward sweep as the solver's contract names
    them: [cprime m i] is c'[i] and [denom m i] is the denominator
    [diag[i] - sub[i]*c'[i-1]] of step [i >= 1].  They are total functions
    of the rows, used to state when the sweep meets a zero denominator. *)
Fixpoint cprime (m : list V3.t) (i : nat) : Qc :=
  match i with
  | O => V3.Z (m !!! 0%nat) / V3.Y (m !!! 0%nat)
  | S j => V3.Z (m !!! i) / (V3.Y (m !!! i) - V3.X (m !!! i) * cprime m j)
  end.

Definition denom (m : list V3.t) (i : nat) : Qc :=
  V3.Y (m !!! i) - V3.X (m !!! i) * cprime m (i - 1).

(** The right-hand side after the forward sweep, d'[i]. *)
Fixpoint dprime (m : list V3.t) (d : list Qc) (i : nat) : Qc :=
  match i with
  | O => d !!! 0%nat / V3.Y (m !!! 0%nat)
  | S j =>
      (d !!! i - V3.X (m !!! i) * dprime m d j)
      / (V3.Y (m !!! i) - V3.X (m !!! i) * cprime m j)
  end.

(** The work arrays hold c' and d' below index [k]. *)
Definition swept (m : list V3.t) (d : list Qc) (k : nat) (cp x : list Qc)
    : Prop :=
  length cp = length m ∧ length x = length m ∧
  ∀ j, (j < k)%nat → cp !!! j = cprime m j ∧ x !!! j = dprime m d j.

(** Entry [j] of [x] has its final value: it satisfies the equation of
    the back substitution. *)
Definition back_solved (m : list V3.t) (d : list Qc) (x : list Qc) (j : nat)
    : Prop :=
  x !!! j = if decide (S j < length m)%nat
            then dprime m d j - cprime m j * x !!! S j
            else dprime m d j.

(** The failure conditions of the solver's contract: the sizes differ,
    [m[0].X != 0], [m[n-1].Z != 0], [m[0].Y == 0], or a denominator of the
    forward sweep is zero.  A condition on a row says that the row is
    there. *)
Definition listed_failure (m : list V3.t) (d : list Qc) : Prop :=
  length d ≠ length m
  ∨ (∃ r, m !! 0%nat = Some r ∧ V3.X r ≠ 0)
  ∨ (∃ r, m !! (length m - 1)%nat = Some r ∧ V3.Z r ≠ 0)
  ∨ (∃ r, m !! 0%nat = Some r ∧ V3.Y r = 0)
  ∨ (∃ i, (1 ≤ i < length m)%nat ∧ denom m i = 0).

(** Row [i] of the system [m.x = d], with [x[-1] = x[n] = 0]. *)
Definition row_holds (m : list V3.t) (d x : list Qc) (i : nat) : Prop :=
  V3.X (m !!! i) * match i with O => 0 | S j => x !!! j end
  + V3.Y (m !!! i) * x !!! i
  + V3.Z (m !!! i) * default 0 (x !! S i)
  = d !!! i.

(** The rows that [CubicSpline2D] builds for [n >= 2] knots: first row
    [(0,2,1)], interior rows [(1,4,1)], last row [(1,2,0)]. *)
Definition natural_rows (m : list V3.t) : Prop :=
  (2 ≤ length m)%nat
  ∧ m !!! 0%nat = V3.mk 0 2 1
  ∧ (∀ i, (1 ≤ i < length m - 1)%nat → m !!! i = V3.mk 1 4 1)
  ∧ m !!! (length m - 1)%nat = V3.mk 1 2 0.

(** ** Cubic polynomials *)

Record CubicPolynomial : Type := mkPoly { a : Qc; b : Qc; c : Qc; d : Qc }.

Module Poly.
Definition f0 (p : CubicPolynomial) (t : Qc) : Qc :=
  a p + t * (b p + t * (c p + d p * t)).

Definition f1 (p : CubicPolynomial) (t : Qc) : Qc :=
  b p + t * (2 * c p + 3 * d p * t).

Definition f2 (p : CubicPolynomial) (t : Qc) : Qc :=
  2 * c p + 6 * d p * t.

(** [p.Set(y0, y1, D0, D1)]: the new value of the receiver ([Set] is
    reserved, hence the underscore). *)
Definition Set_ (y0 y1 D0 D1 : Qc) : CubicPolynomial :=
  {| a := y0;
     b := D0;
     c := 3 * (y1 - y0) - 2 * D0 - D1;
     d := 2 * (y0 - y1) + D0 + D1 |}.

Definition zero : CubicPolynomial := mkPoly 0 0 0 0.
End Poly.

(** ** Helpers of package [sdf] outside these files *)

(** Modelled from the spec: [Clamp(x, lo, hi)] clamps [x] to the range
    [lo, hi]; the function itself is in a file of the package that is
    not among the sources. *)
Definition Clamp (x lo hi : Qc) : Qc :=
  if decide (x < lo) then lo else if decide (hi < x) then hi else x.

Record Box2 : Type := mkBox2 { Min : V2.t; Max : V2.t }.

(** Modelled from the spec: a box is extended by taking the union with
    another box; [Box2.Extend] is not among the sources. *)
Definition Extend (a b : Box2) : Box2 :=
  {| Min := V2.Min (Min a) (Min b); Max := V2.Max (Max a) (Max b) |}.

(** Modelled from the spec: the minimum corner of a non-empty point set
    ([V2Set.Min], not among the sources). *)
Definition V2Set_Min (p : list V2.t) : V2.t := foldl V2.Min (p !!! 0%nat) p.
(** Modelled from the spec: the maximum corner of a non-empty point set
    ([V2Set.Max], not among the sources). *)
Definition V2Set_Max (p : list V2.t) : V2.t := foldl V2.Max (p !!! 0%nat) p.

(** ** Spline segments and the spline curve *)

Record CubicSpline : Type := mkSpline {
  idx : Z;
  p0 : V2.t;
  p1 : V2.t;
  px : CubicPolynomial;
  py : CubicPolynomial
}.

Record CubicSplineSDF2 : Type := mkSDF2 {
  spline : list CubicSpline;
  bb : Box2
}.

Module Spline.
Definition f0 (s : CubicSpline) (t : Qc) : V2.t :=
  V2.mk (Poly.f0 (px s) t) (Poly.f0 (py s) t).

Definition f1 (s : CubicSpline) (t : Qc) : V2.t :=
  V2.mk (Poly.f1 (px s) t) (Poly.f1 (py s) t).

Definition f2 (s : CubicSpline) (t : Qc) : V2.t :=
  V2.mk (Poly.f2 (px s) t) (Poly.f2 (py s) t).

Definition zero : CubicSpline :=
  mkSpline 0 V2.zero V2.zero Poly.zero Poly.zero.
End Spline.

#[global] Instance CubicSpline_inhabited : Inhabited CubicSpline :=
  populate Spline.zero.

(** [s.Find(t)].  The returned pointer [&s.spline[i]] is the index [i]
    of the segment; the runtime checks it when the address is taken. *)
Definition Find (s : CubicSplineSDF2) (t : Qc) : result (nat * Qc) :=
  let n := Z.of_nat (length (spline s)) in
  let t := Clamp t 0 (float64 n) in
  let i := int t in
  let t := t - float64 i in
  let '(i, t) := if decide (i = n) then ((i - 1)%Z, 1) else (i, t) in
  _ ← index (spline s) i;
  Ok (Z.to_nat i, t).

Definition F0 (s : CubicSplineSDF2) (t : Qc) : result V2.t :=
  '(i, t) ← Find s t;
  Ok (Spline.f0 (spline s !!! i) t).

Definition Evaluate (s : CubicSplineSDF2) (p : V2.t) : Qc := 0.

Definition BoundingBox (s : CubicSplineSDF2) : Box2 := bb s.

(** The loop over the interior rows, [for i := 1; i < n-1; i++]. *)
Fixpoint interior_rows (knot : list V2.t) (ix : list nat)
    (m : list V3.t) (dx dy : list Qc) : list V3.t * list Qc * list Qc :=
  match ix with
  | [] => (m, dx, dy)
  | i :: ix =>
      let m := <[i := V3.mk 1 4 1]> m in
      let dx := <[i := 3 * (V2.X (knot !!! (i + 1)%nat) - V2.X (knot !!! (i - 1)%nat))]> dx in
      let dy := <[i := 3 * (V2.Y (knot !!! (i + 1)%nat) - V2.Y (knot !!! (i - 1)%nat))]> dy in
      interior_rows knot ix m dx dy
  end.

(** The loop that fills the segments, [for i := 0; i < n-1; i++]. *)
Fixpoint fill_segments (knot : list V2.t) (xx xy : list Qc) (ix : list nat)
    (sp : list CubicSpline) : list CubicSpline :=
  match ix with
  | [] => sp
  | i :: ix =>
      let k0 := knot !!! i in
      let k1 := knot !!! (i + 1)%nat in
      let seg :=
        {| idx := Z.of_nat i;
           p0 := k0;
           p1 := k1;
           px := Poly.Set_ (V2.X k0) (V2.X k1) (xx !!! i) (xx !!! (i + 1)%nat);
           py := Poly.Set_ (V2.Y k0) (V2.Y k1) (xy !!! i) (xy !!! (i + 1)%nat) |} in
      fill_segments knot xx xy ix (<[i := seg]> sp)
  end.

Section SplineCurve.
(** [quadratic(a, b, c)], the real roots of [a t^2 + b t + c], is in a
    file of the package that is not among the sources and needs square
    roots: it is a parameter.  (Its second result is discarded by the
    caller, and the diagnostic printing around the call is output only.) *)
Variable quadratic : Qc → Qc → Qc → list Qc.

Definition f1_zeroes (p : CubicPolynomial) : list Qc :=
  quadratic (3 * d p) (2 * c p) (b p).

Definition Spline_BoundingBox (s : CubicSpline) : Box2 :=
  let p := [p0 s; p1 s] in
  let p := p ++ ((λ t, Spline.f0 s (Clamp t 0 1)) <$> f1_zeroes (px s)) in
  let p := p ++ ((λ t, Spline.f0 s (Clamp t 0 1)) <$> f1_zeroes (py s)) in
  {| Min := V2Set_Min p; Max := V2Set_Max p |}.

Definition CubicSpline2D (knot : list V2.t) : result CubicSplineSDF2 :=
  if decide (length knot < 2)%nat
  then Panic "cubic splines at least 2 knots" else
  let n := length knot in
  let m := replicate n V3.zero in
  let dx := replicate n 0 in
  let dy := replicate n 0 in
  let '(m, dx, dy) := interior_rows knot (seq 1 (n - 2)) m dx dy in
  let m := <[0%nat := V3.mk 0 2 1]> m in
  let dx := <[0%nat := 3 * (V2.X (knot !!! 1%nat) - V2.X (knot !!! 0%nat))]> dx in
  let dy := <[0%nat := 3 * (V2.Y (knot !!! 1%nat) - V2.Y (knot !!! 0%nat))]> dy in
  let m := <[(n - 1)%nat := V3.mk 1 2 0]> m in
  let dx := <[(n - 1)%nat := 3 * (V2.X (knot !!! (n - 1)%nat) - V2.X (knot !!! (n - 2)%nat))]> dx in
  let dy := <[(n - 1)%nat := 3 * (V2.Y (knot !!! (n - 1)%nat) - V2.Y (knot !!! (n - 2)%nat))]> dy in
  xx ← TriDiagonal m dx;
  xy ← TriDiagonal m dy;
  let sp := fill_segments knot xx xy (seq 0 (n - 1))
              (replicate (n - 1) Spline.zero) in
  let box := foldl (λ acc s, Extend acc (Spline_BoundingBox s))
               (Spline_BoundingBox (sp !!! 0%nat)) (drop 1 sp) in
  Ok {| spline := sp; bb := box |}.
End SplineCurve.

(** What the fitted curve is, stated apart from the loops that build it.
    [natural_system coord knot D]: the derivatives [D] of the coordinate
    [coord] solve the system of the natural spline through [knot]. *)
Definition natural_system (coord : V2.t → Qc) (knot : list V2.t)
    (D : list Qc) : Prop :=
  let n := length knot in
  length D = n
  ∧ 2 * D !!! 0%nat + D !!! 1%nat
    = 3 * (coord (knot !!! 1%nat) - coord (knot !!! 0%nat))
  ∧ (∀ i, (1 ≤ i < n - 1)%nat →
       D !!! (i - 1)%nat + 4 * D !!! i + D !!! (i + 1)%nat
       = 3 * (coord (knot !!! (i + 1)%nat) - coord (knot !!! (i - 1)%nat)))
  ∧ D !!! (n - 2)%nat + 2 * D !!! (n - 1)%nat
    = 3 * (coord (knot !!! (n - 1)%nat) - coord (knot !!! (n - 2)%nat)).

(** Segment [i] of the curve through [knot] with derivatives [xx], [xy]. *)
Definition segment_of (knot : list V2.t) (xx xy : list Qc) (i : nat)
    : CubicSpline :=
  {| idx := Z.of_nat i;
     p0 := knot !!! i;
     p1 := knot !!! (i + 1)%nat;
     px := Poly.Set_ (V2.X (knot !!! i)) (V2.X (knot !!! (i + 1)%nat))
             (xx !!! i) (xx !!! (i + 1)%nat);
     py := Poly.Set_ (V2.Y (knot !!! i)) (V2.Y (knot !!! (i + 1)%nat))
             (xy !!! i) (xy !!! (i + 1)%nat) |}.

(** ** Raster images

    [color.RGBA] and [image.RGBA] belong to Go's standard library.  The
    raster is modelled as [image.NewRGBA(image.Rect(0, 0, W, H))] makes
    it: four bytes per pixel, row by row, the alpha byte last, the
    rectangle anchored at the origin.  A byte is a [Z] in [0, 255].
    Lengths, counts and indices of slices are [nat]: they never wrap. *)

Module color.
Record RGBA : Type := mk { R : Z; G : Z; B : Z; A : Z }.
Definition zero : RGBA := mk 0 0 0 0.
Definition bytes (c : RGBA) : list Z := [R c; G c; B c; A c].
End color.

(** The four bytes of [c] stored from offset [i] on. *)
Definition write_bytes (i : nat) (c : color.RGBA) (pix : list Z) : list Z :=
  <[(i + 3)%nat := color.A c]>
    (<[(i + 2)%nat := color.B c]>
      (<[(i + 1)%nat := color.G c]>
        (<[i := color.R c]> pix))).

Module image.
Record RGBA : Type := mk { Pix : list Z; W : nat; H : nat }.

Definition wf (p : RGBA) : Prop := length (Pix p) = (4 * (W p * H p))%nat.

Definition PixOffset (p : RGBA) (x y : nat) : nat := (y * (4 * W p) + x * 4)%nat.

(** [p.SetRGBA(x, y, c)]: nothing is written outside the rectangle. *)
Definition SetRGBA (p : RGBA) (x y : nat) (c : color.RGBA) : RGBA :=
  if decide (x < W p ∧ y < H p)%nat
  then mk (write_bytes (PixOffset p x y) c (Pix p)) (W p) (H p)
  else p.

(** The alpha value of a fully transparent and of a fully opaque pixel. *)
Definition transparent : Z := 0.
Definition opaque : Z := 255.
End image.

(** ** The 3D renderer *)

(** A channel value as [Render] sees it: nil, or a channel whose receiver
    takes every value sent. *)
Inductive chan : Type := ChanNil | ChanOpen.

#[global] Instance chan_eq_dec : EqDecision chan.
Proof. solve_decision. Defined.

(** [close(ch)]: closing the nil channel is a run-time panic. *)
Definition close (ch : chan) : result unit :=
  match ch with
  | ChanNil => Panic "close of nil channel"
  | ChanOpen => Ok tt
  end.

(** What [ctx.Err()] returns once the context is done. *)
Inductive error : Type := Canceled | DeadlineExceeded.

(** [l[i], l[j] = l[j], l[i]] *)
Definition swap (l : list nat) (i j : nat) : list nat :=
  <[j := l !!! i]> (<[i := l !!! j]> l).

(** [rand.Shuffle(n, swap)] of Go's standard library is the Fisher-Yates
    shuffle: it calls [swap(i, j)] for [i = n-1 .. 1] with a random [j] in
    [0, i].  The random source is the oracle [rnd]; [Shuffle_from rnd i]
    is the loop from index [i] down. *)
Fixpoint Shuffle_from (rnd : nat → nat) (i : nat) (l : list nat) : list nat :=
  match i with
  | O => l
  | S i' => Shuffle_from rnd i' (swap l i (rnd i mod (i + 1)))
  end.

Definition Shuffle (rnd : nat → nat) (n : nat) (l : list nat) : list nat :=
  Shuffle_from rnd (n - 1) l.

(** The loop [for i := 0; i < pixelCount; i++ { pixelsRand[i] = i }]. *)
Fixpoint fill_indices (ix : list nat) (l : list nat) : list nat :=
  match ix with
  | [] => l
  | i :: ix => fill_indices ix (<[i := i]> l)
  end.

(** The loop [for i := 3; i < len(Pix); i += 4 { Pix[i] = 255 }]; [fuel]
    bounds the number of rounds ([len(Pix)] rounds always suffice). *)
Fixpoint set_alpha (fuel : nat) (i : nat) (pix : list Z) : list Z :=
  match fuel with
  | O => pix
  | S fuel =>
      if decide (i < length pix)%nat
      then set_alpha fuel (i + 4) (<[i := 255%Z]> pix)
      else pix
  end.

(** The first statement of [Render], commented "Set all pixels to
    transparent initially" in the source: the loop above on the raster. *)
Definition init_raster (fullRender : image.RGBA) : image.RGBA :=
  image.mk (set_alpha (length (image.Pix fullRender)) 3 (image.Pix fullRender))
    (image.W fullRender) (image.H fullRender).

Definition pixelBatch : nat := 100.
Definition maxSteps : Z := 1000.

Section Renderer.
(** The shape, the render state and the 4x4 matrices belong to other
    packages; the camera set-up of a pass and the ray cast of a pixel
    are floating-point trigonometry on them.  They are parameters:
    [camera state bounds] is the camera position, direction, view
    matrix and field of view that [Render] computes, and [castRay s job]
    is the pair [(t, steps)] that [samplePixel] gets from [sdf.Raycast3]
    for the ray of [job] against the shape [s]. *)
Context {SDF3 RendererState M44 : Type}.

Record pixelRender : Type := mkPixelRender {
  pixel : nat * nat;
  bounds : nat * nat;
  camPos : V3.t;
  camDir : V3.t;
  camViewMatrix : M44;
  camFov : V2.t;
  rendered : color.RGBA
}.

Variable camera : RendererState → nat * nat → V3.t * V3.t * M44 * V2.t.
Variable castRay : SDF3 → pixelRender → Qc * Z.

Record renderer3 : Type := mkRenderer3 {
  s : SDF3;
  pixelsRand : list nat
}.

Definition newDevRenderer3 (s : SDF3) : renderer3 :=
  {| s := s; pixelsRand := [] |}.

Definition Dimensions (r : renderer3) : Z := 3.

Definition samplePixel (r : renderer3) (job : pixelRender) : color.RGBA :=
  let '(t, steps) := castRay (s r) job in
  if decide (0 ≤ t) then color.mk 0 0 255 255
  else if decide (steps = maxSteps) then color.mk 150 50 50 255
  else color.mk 150 50 50 255.

(** [job.rendered = c] *)
Definition set_rendered (job : pixelRender) (c : color.RGBA) : pixelRender :=
  {| pixel := pixel job; bounds := bounds job; camPos := camPos job;
     camDir := camDir job; camViewMatrix := camViewMatrix job;
     camFov := camFov job; rendered := c |}.

(** "Update random pixels if needed" *)
Definition updatePixelsRand (rnd : nat → nat) (r : renderer3)
    (pixelCount : nat) : renderer3 :=
  if decide (pixelCount ≠ length (pixelsRand r)) then
    let pr := replicate pixelCount 0%nat in
    let pr := fill_indices (seq 0 pixelCount) pr in
    {| s := s r; pixelsRand := Shuffle rnd (length pr) pr |}
  else r.

(** The job that the work generator queues for [randPixelIndex]. *)
Definition make_job (state : RendererState) (boundsSize : nat * nat)
    (randPixelIndex : nat) : pixelRender :=
  let '(camPos, camDir, camViewMatrix, camFov) := camera state boundsSize in
  {| pixel := (randPixelIndex mod boundsSize.1, randPixelIndex / boundsSize.1)%nat;
     bounds := boundsSize;
     camPos := camPos;
     camDir := camDir;
     camViewMatrix := camViewMatrix;
     camFov := camFov;
     rendered := color.zero |}.

(** *** The worker pool

    The generator goroutine holds the jobs not yet handed out, each
    worker is idle or holds the job it has sampled and is about to send,
    and [delivered] lists the results in the order the collector
    receives them. *)
Record pool : Type := mkPool {
  pending : list pixelRender;
  workers : list (option pixelRender);
  delivered : list pixelRender
}.

Inductive pool_step (r : renderer3) : pool → pool → Prop :=
| worker_takes i job rest ws out :
    ws !! i = Some None →
    pool_step r (mkPool (job :: rest) ws out)
      (mkPool rest (<[i := Some (set_rendered job (samplePixel r job))]> ws) out)
| worker_sends i res pend ws out :
    ws !! i = Some (Some res) →
    pool_step r (mkPool pend ws out)
      (mkPool pend (<[i := None]> ws) (out ++ [res])).

(** The results of [jobs] can arrive in the order [order] when
    [numCPU] workers run. *)
Definition arrival (r : renderer3) (numCPU : nat)
    (jobs order : list pixelRender) : Prop :=
  rtc (pool_step r)
    (mkPool jobs (replicate numCPU None) [])
    (mkPool [] (replicate numCPU None) order).

(** *** The collector loop ([pixelLoop])

    [ctx n] is [ctx.Err()] at the check made after [n] pixels;
    [sends] counts the snapshots sent on [partialRender]. *)
Fixpoint pixelLoop (ctx : nat → option error) (partialRender : chan)
    (jobResults : list pixelRender) (pixelNum : nat)
    (fullRender : image.RGBA) (sends : nat)
    : image.RGBA * nat * option error :=
  match jobResults with
  | [] => (fullRender, sends, None)
  | renderedPixel :: jobResults =>
      let fullRender :=
        image.SetRGBA fullRender (pixel renderedPixel).1
          (pixel renderedPixel).2 (rendered renderedPixel) in
      let pixelNum := S pixelNum in
      if decide (pixelNum mod pixelBatch = 0)%nat then
        match ctx pixelNum with
        | Some err => (fullRender, sends, Some err)
        | None =>
            let sends :=
              if decide (partialRender ≠ ChanNil) then S sends else sends in
            pixelLoop ctx partialRender jobResults pixelNum fullRender sends
        end
      else pixelLoop ctx partialRender jobResults pixelNum fullRender sends
  end.

(** What a pass leaves behind: the renderer and the raster after it,
    the number of snapshots sent, and how the call ended. *)
Record pass : Type := mkPass {
  renderer : renderer3;
  raster : image.RGBA;
  sent : nat;
  returned : result (option error)
}.

(** [r.Render(ctx, state, stateLock, cachedRenderLock, partialRender,
    fullRender)].  [rnd] is the random source of the shuffle and
    [sched] the scheduler: it maps the jobs, in the order they are
    queued, to the results in the order they arrive.  The two locks only
    order this pass with other goroutines and are not modelled. *)
Definition Render (rnd : nat → nat)
    (sched : list pixelRender → list pixelRender)
    (r : renderer3) (ctx : nat → option error) (state : RendererState)
    (partialRender : chan) (fullRender : image.RGBA) : pass :=
  let fullRender := init_raster fullRender in
  let boundsSize := (image.W fullRender, image.H fullRender) in
  let pixelCount := (boundsSize.1 * boundsSize.2)%nat in
  let r := updatePixelsRand rnd r pixelCount in
  let jobs := make_job state boundsSize <$> pixelsRand r in
  let '(fullRender, sends, err) :=
    pixelLoop ctx partialRender (sched jobs) 0 fullRender 0 in
  {| renderer := r;
     raster := fullRender;
     sent := sends;
     returned := _ ← close partialRender; Ok err |}.

(** The results of the jobs, in the order the jobs are queued. *)
Definition results_of (r : renderer3) (jobs : list pixelRender)
    : list pixelRender :=
  (λ job, set_rendered job (samplePixel r job)) <$> jobs.

(** The raster that holds, for every pixel, the colour [samplePixel]
    gives to its job. *)
Definition sampled_raster (r : renderer3) (state : RendererState)
    (w h : nat) : image.RGBA :=
  image.mk
    (q ← seq 0 (w * h);
     color.bytes (samplePixel r (make_job state (w, h) q)))
    w h.

(** What one round of the collector loop writes. *)
Definition write_result (fullRender : image.RGBA) (e : pixelRender)
    : image.RGBA :=
  image.SetRGBA fullRender (pixel e).1 (pixel e).2 (rendered e).

(** All the results a pool still holds or has delivered. *)
Definition pool_results (r : renderer3) (st : pool) : list pixelRender :=
  delivered st ++ omap id (workers st) ++ results_of r (pending st).

(** The renderer after a history of passes on a fresh renderer; a pass
    is given by its random source and its resolution. *)
Definition after_passes (s : SDF3) (history : list ((nat → nat) * (nat * nat)))
    : renderer3 :=
  foldl (λ r p, updatePixelsRand p.1 r (p.2.1 * p.2.2)) (newDevRenderer3 s)
    history.
End Renderer.


(** ** Polygons and boxes around the curve *)

(** Modelled from the spec: a polygon as the ordered sequence of its
    points; [NewPolygon] makes the empty one and [AddV2] appends a point
    (the polygon file of the package is not among the sources). *)
Definition NewPolygon : list V2.t := [].
(** Modelled from the spec: [p.AddV2(x)] appends the point [x] to the
    polygon [p] (not among the sources). *)
Definition AddV2 (p : list V2.t) (x : V2.t) : list V2.t := p ++ [x].

(** The loop of [Polygonize], [for i := 0; i < n; i++], with [k] rounds
    left, the parameter at [t] and the polygon [p] so far. *)
Fixpoint Polygonize_from (s : CubicSplineSDF2) (dt : Qc) (k : nat) (t : Qc)
    (p : list V2.t) : result (list V2.t) :=
  match k with
  | O => Ok p
  | S k =>
      x ← F0 s t;
      Polygonize_from s dt k (t + dt) (AddV2 p x)
  end.

(** [s.Polygonize(n)].  For [n = 1] the step [dt] is a division by zero,
    an infinity in Go and 0 here; the one round of the loop reads [t = 0]
    and the step is added after it, so the polygon is the same. *)
Definition Polygonize (s : CubicSplineSDF2) (n : Z) : result (list V2.t) :=
  let p := NewPolygon in
  let dt := float64 (Z.of_nat (length (spline s))) / float64 (n - 1) in
  Polygonize_from s dt (Z.to_nat n) 0 p.

(** The point [p] lies in the box [b]. *)
Definition Box2_contains (b : Box2) (p : V2.t) : Prop :=
  V2.X (Min b) ≤ V2.X p ∧ V2.X p ≤ V2.X (Max b)
  ∧ V2.Y (Min b) ≤ V2.Y p ∧ V2.Y p ≤ V2.Y (Max b).

(** The matrix and the right-hand side of the natural spline through
    [knot], for the coordinate [coord], written in closed form. *)
Definition natural_matrix (n : nat) : list V3.t :=
  <[(n - 1)%nat := V3.mk 1 2 0]>
    (<[0%nat := V3.mk 0 2 1]> (replicate n (V3.mk 1 4 1))).

Definition natural_rhs (coord : V2.t → Qc) (knot : list V2.t) : list Qc :=
  let n := length knot in
  <[(n - 1)%nat := 3 * (coord (knot !!! (n - 1)%nat) - coord (knot !!! (n - 2)%nat))]>
    (<[0%nat := 3 * (coord (knot !!! 1%nat) - coord (knot !!! 0%nat))]>
      ((λ i, 3 * (coord (knot !!! (i + 1)%nat) - coord (knot !!! (i - 1)%nat)))
       <$> seq 0 n)).

(** The raster [p] has the size [w x h] and every pixel of it has alpha
    255. *)
Definition opaque_raster (w h : nat) (p : image.RGBA) : Prop :=
  image.wf p ∧ image.W p = w ∧ image.H p = h
  ∧ ∀ q, (q < w * h)%nat → image.Pix p !! (4 * q + 3)%nat = Some 255%Z.

(** ** A small scene

    A camera and a ray cast on trivial shape, state and matrix types, to
    run the renderer on: the ray of a pixel hits when the sum of its
    coordinates is even and runs out of steps otherwise. *)

Definition example_camera (_ : unit) (_ : nat * nat)
    : V3.t * V3.t * unit * V2.t :=
  (V3.zero, V3.zero, tt, V2.zero).

Definition example_castRay (_ : unit) (job : @pixelRender unit) : Qc * Z :=
  if decide (((pixel job).1 + (pixel job).2) `mod` 2 = 0)%nat
  then (1, 5%Z) else (- 1, maxSteps).

(** * Proofs *)

(** ** The forward sweep *)

Section Elimination.
Variables (m : list V3.t) (d : list Qc).

Lemma elimination_step k cp x :
  (1 ≤ k < length m)%nat → swept m d k cp x →
  V3.Y (m !!! k) - V3.X (m !!! k) * cp !!! (k - 1)%nat = denom m k ∧
  swept m d (S k)
    (<[k := V3.Z (m !!! k) / denom m k]> cp)
    (<[k := (d !!! k - V3.X (m !!! k) * x !!! (k - 1)%nat) / denom m k]> x).
Proof.
  intros [Hk Hn] (Hcp & Hx & Hlow).
  destruct k as [|k']; [lia|].
  replace (S k' - 1)%nat with k' by lia.
  destruct (Hlow k') as [Ec Ex]; [lia|].
  unfold denom. replace (S k' - 1)%nat with k' by lia.
  rewrite Ec, Ex. split; [done|].
  split_and!; rewrite ?length_insert; try done.
  intros j Hj. destruct (decide (j = S k')) as [->|Hne].
  - rewrite !list_lookup_total_insert_eq by lia. done.
  - rewrite !list_lookup_total_insert_ne by done. apply Hlow. lia.
Qed.

Lemma elimination_ok len : ∀ k cp x,
  (1 ≤ k)%nat → (k + len ≤ length m)%nat → swept m d k cp x →
  (∀ i, (k ≤ i < k + len)%nat → denom m i ≠ 0) →
  ∃ cp' x', elimination m d (seq k len) cp x = Ok (cp', x')
            ∧ swept m d (k + len) cp' x'.
Proof.
  induction len as [|len IH]; intros k cp x Hk Hlen Hs Hden; simpl.
  - exists cp, x. by rewrite Nat.add_0_r.
  - destruct (elimination_step k cp x) as [-> Hs']; [lia|done|].
    rewrite decide_False by (apply Hden; lia).
    destruct (IH (S k) _ _ ltac:(lia) ltac:(lia) Hs') as (cp' & x' & E & Hs'').
    { intros i Hi. apply Hden. lia. }
    exists cp', x'. rewrite E. split; [done|].
    by replace (k + S len)%nat with (S k + len)%nat by lia.
Qed.

Lemma elimination_panic len : ∀ k cp x,
  (1 ≤ k)%nat → (k + len ≤ length m)%nat → swept m d k cp x →
  (∃ i, (k ≤ i < k + len)%nat ∧ denom m i = 0) →
  elimination m d (seq k len) cp x = Panic "denom == 0".
Proof.
  induction len as [|len IH]; intros k cp x Hk Hlen Hs (i & Hi & Hz); simpl.
  - lia.
  - destruct (elimination_step k cp x) as [-> Hs']; [lia|done|].
    case_decide as Hd; [done|].
    apply IH; [lia|lia|done|].
    exists i. split; [|done].
    destruct (decide (i = k)) as [->|]; [done|lia].
Qed.

Lemma elimination_result ix : ∀ cp x r,
  elimination m d ix cp x = r →
  r = Panic "denom == 0" ∨ ∃ cp' x', r = Ok (cp', x').
Proof.
  induction ix as [|i ix IH]; intros cp x r; simpl.
  - intros <-. right. eauto.
  - case_decide; [intros <-; by left|]. apply IH.
Qed.
End Elimination.

(** ** Back substitution *)

Lemma index_ok {A} `{Inhabited A} (l : list A) (i : nat) :
  (i < length l)%nat → index l (Z.of_nat i) = Ok (l !!! i).
Proof.
  intros Hi. unfold index. rewrite decide_True by lia.
  rewrite Nat2Z.id. by rewrite (list_lookup_lookup_total_lt l i Hi).
Qed.

Lemma index_ok_Z {A} `{Inhabited A} (l : list A) (i : Z) :
  (0 ≤ i < Z.of_nat (length l))%Z → index l i = Ok (l !!! Z.to_nat i).
Proof.
  intros Hi. rewrite <-(Z2Nat.id i) at 1 by lia. apply index_ok. lia.
Qed.

Lemma reverse_seq_S len :
  reverse (seq 0 (S len)) = len :: reverse (seq 0 len).
Proof. by rewrite seq_S, reverse_snoc. Qed.

Lemma back_substitution_spec (m : list V3.t) (d cp : list Qc) len : ∀ x,
  (len < length m)%nat → length x = length m →
  (∀ j, (j < length m)%nat → cp !!! j = cprime m j) →
  (∀ j, (len ≤ j < length m)%nat → back_solved m d x j) →
  (∀ j, (j < len)%nat → x !!! j = dprime m d j) →
  length (back_substitution cp (reverse (seq 0 len)) x) = length m ∧
  ∀ j, (j < length m)%nat →
    back_solved m d (back_substitution cp (reverse (seq 0 len)) x) j.
Proof.
  induction len as [|len IH]; intros x Hlen Hx Hcp Hhigh Hlow.
  - split; [done|]. intros j Hj. apply Hhigh. lia.
  - rewrite reverse_seq_S. simpl.
    apply IH; [lia|by rewrite length_insert|done| |].
    + intros j Hj. unfold back_solved.
      destruct (decide (j = len)) as [->|Hne].
      * rewrite list_lookup_total_insert_eq by lia.
        rewrite list_lookup_total_insert_ne by lia.
        rewrite decide_True by lia.
        rewrite Hcp by lia. rewrite (Hlow len) by lia.
        by replace (len + 1)%nat with (S len) by lia.
      * rewrite !list_lookup_total_insert_ne by lia.
        apply Hhigh. lia.
    + intros j Hj. rewrite list_lookup_total_insert_ne by lia.
      apply Hlow. lia.
Qed.

(** ** The solver on well-formed systems *)

Lemma back_solved_row (m : list V3.t) (d x : list Qc) :
  length d = length m → length x = length m →
  V3.X (m !!! 0%nat) = 0 →
  V3.Z (m !!! (length m - 1)%nat) = 0 →
  V3.Y (m !!! 0%nat) ≠ 0 →
  (∀ i, (1 ≤ i < length m)%nat → denom m i ≠ 0) →
  (∀ j, (j < length m)%nat → back_solved m d x j) →
  ∀ i, (i < length m)%nat → row_holds m d x i.
Proof.
  intros Hd Hx HX0 HZn HY0 Hden Hsol i Hi. unfold row_holds.
  assert (Hnext : default 0 (x !! S i) =
                  if decide (S i < length m)%nat then x !!! S i else 0).
  { case_decide as Hlt.
    - by rewrite (list_lookup_lookup_total_lt x (S i)) by lia.
    - by rewrite (lookup_ge_None_2 x (S i)) by lia. }
  rewrite Hnext. clear Hnext.
  pose proof (Hsol i Hi) as Ei. unfold back_solved in Ei.
  destruct i as [|j].
  - rewrite HX0. rewrite Ei. simpl cprime. simpl dprime.
    case_decide as Hlt.
    + field. done.
    + replace (length m - 1)%nat with 0%nat in HZn by lia.
      rewrite HZn. field. done.
  - pose proof (Hsol j ltac:(lia)) as Ej. unfold back_solved in Ej.
    rewrite decide_True in Ej by lia.
    pose proof (Hden (S j) ltac:(lia)) as Hnz. unfold denom in Hnz.
    replace (S j - 1)%nat with j in Hnz by lia.
    rewrite Ej. rewrite Ei. simpl cprime. simpl dprime.
    set (e := V3.Y (m !!! S j) - V3.X (m !!! S j) * cprime m j) in *.
    assert (EY : V3.Y (m !!! S j) = e + V3.X (m !!! S j) * cprime m j)
      by (subst e; ring).
    rewrite EY. clearbody e.
    case_decide as Hlt.
    + field. done.
    + replace (length m - 1)%nat with (S j) in HZn by lia.
      rewrite HZn. field. done.
Qed.

Lemma TriDiagonal_unfold (m : list V3.t) (d : list Qc) :
  (1 ≤ length m)%nat →
  TriDiagonal m d =
    if decide (length d ≠ length m)
    then Panic "bad sizes rows(m) != rows(d)" else
    if decide (V3.X (m !!! 0%nat) ≠ 0 ∨ V3.Z (m !!! (length m - 1)%nat) ≠ 0)
    then Panic "bad values for tridiagonal matrix" else
    if decide (V3.Y (m !!! 0%nat) = 0) then Panic "m[0].Y == 0" else
    '(cp, x) ← elimination m d (seq 1 (length m - 1))
                 (<[0%nat := cprime m 0]> (replicate (length m) 0))
                 (<[0%nat := dprime m d 0]> (replicate (length m) 0));
    Ok (back_substitution cp (reverse (seq 0 (length m - 1))) x).
Proof.
  intros Hn. unfold TriDiagonal.
  case_decide; [done|].
  replace 0%Z with (Z.of_nat 0) by done.
  rewrite index_ok by lia. cbn [mbind result_bind].
  replace (Z.of_nat (length m) - 1)%Z with (Z.of_nat (length m - 1)) by lia.
  rewrite index_ok by lia. cbn [mbind result_bind].
  done.
Qed.

Lemma TriDiagonal_run (m : list V3.t) (d : list Qc) :
  (1 ≤ length m)%nat → length d = length m →
  V3.X (m !!! 0%nat) = 0 →
  V3.Z (m !!! (length m - 1)%nat) = 0 →
  V3.Y (m !!! 0%nat) ≠ 0 →
  TriDiagonal m d =
    '(cp, x) ← elimination m d (seq 1 (length m - 1))
                 (<[0%nat := cprime m 0]> (replicate (length m) 0))
                 (<[0%nat := dprime m d 0]> (replicate (length m) 0));
    Ok (back_substitution cp (reverse (seq 0 (length m - 1))) x).
Proof.
  intros Hn Hd HX HZ HY. rewrite TriDiagonal_unfold by done.
  rewrite decide_False by (intros Hne; by apply Hne).
  rewrite decide_False by (intros [?|?]; done).
  by rewrite decide_False by done.
Qed.

Lemma swept_init (m : list V3.t) (d : list Qc) :
  (1 ≤ length m)%nat →
  swept m d 1 (<[0%nat := cprime m 0]> (replicate (length m) 0))
              (<[0%nat := dprime m d 0]> (replicate (length m) 0)).
Proof.
  intros Hn. unfold swept.
  rewrite !length_insert, !length_replicate. split_and!; try done.
  intros j Hj. replace j with 0%nat by lia.
  rewrite !list_lookup_total_insert_eq by (rewrite length_replicate; lia).
  done.
Qed.

Lemma TriDiagonal_ok (m : list V3.t) (d : list Qc) :
  (1 ≤ length m)%nat → length d = length m →
  V3.X (m !!! 0%nat) = 0 →
  V3.Z (m !!! (length m - 1)%nat) = 0 →
  V3.Y (m !!! 0%nat) ≠ 0 →
  (∀ i, (1 ≤ i < length m)%nat → denom m i ≠ 0) →
  ∃ x, TriDiagonal m d = Ok x ∧ length x = length m ∧
       ∀ j, (j < length m)%nat → back_solved m d x j.
Proof.
  intros Hn Hd HX HZ HY Hden.
  rewrite TriDiagonal_run by done.
  destruct (elimination_ok m d (length m - 1) 1 _ _ ltac:(lia) ltac:(lia)
              (swept_init m d Hn)) as (cp & x & -> & Hcp & Hx & Hsw).
  { intros i Hi. apply Hden. lia. }
  cbn [mbind result_bind].
  replace (1 + (length m - 1))%nat with (length m) in Hsw by lia.
  destruct (back_substitution_spec m d cp (length m - 1) x) as [Hlen Hsol].
  - lia.
  - done.
  - intros j Hj. by apply Hsw.
  - intros j Hj. unfold back_solved. replace j with (length m - 1)%nat by lia.
    rewrite decide_False by lia. apply Hsw. lia.
  - intros j Hj. apply Hsw. lia.
  - eauto.
Qed.

Lemma TriDiagonal_ok_rows (m : list V3.t) (d : list Qc) :
  (1 ≤ length m)%nat → length d = length m →
  V3.X (m !!! 0%nat) = 0 →
  V3.Z (m !!! (length m - 1)%nat) = 0 →
  V3.Y (m !!! 0%nat) ≠ 0 →
  (∀ i, (1 ≤ i < length m)%nat → denom m i ≠ 0) →
  ∃ x, TriDiagonal m d = Ok x ∧ length x = length m ∧
       ∀ i, (i < length m)%nat → row_holds m d x i.
Proof.
  intros Hn Hd HX HZ HY Hden.
  destruct (TriDiagonal_ok m d) as (x & E & Hlen & Hsol); try done.
  exists x. split_and!; try done.
  by apply back_solved_row.
Qed.

(** C1.  On a system with at least one row, as many right-hand sides as
    rows, [m[0].X = 0], [m[n-1].Z = 0], [m[0].Y != 0] and no zero
    denominator in the forward sweep, [TriDiagonal(m, d)] returns a
    vector [x] of the same length that satisfies every row equation
    [m[i].X*x[i-1] + m[i].Y*x[i] + m[i].Z*x[i+1] = d[i]] (with
    [x[-1] = x[n] = 0]), in exact arithmetic. *)
Theorem TriDiagonal_solves (m : list V3.t) (d : list Qc) :
  (1 ≤ length m)%nat → length d = length m →
  V3.X (m !!! 0%nat) = 0 →
  V3.Z (m !!! (length m - 1)%nat) = 0 →
  V3.Y (m !!! 0%nat) ≠ 0 →
  (∀ i, (1 ≤ i < length m)%nat → denom m i ≠ 0) →
  ∃ x, TriDiagonal m d = Ok x ∧ length x = length m ∧
       ∀ i, (i < length m)%nat → row_holds m d x i.
Proof. apply TriDiagonal_ok_rows. Qed.

Lemma TriDiagonal_solves_witness :
  let m := [V3.mk 0 2 1; V3.mk 1 4 1; V3.mk 1 2 0] in
  let d := [Qc_of_Z 3; Qc_of_Z 7; Qc_of_Z (-3)] in
  ∃ x, TriDiagonal m d = Ok x ∧ length x = length m ∧
       ∀ i, (i < length m)%nat → row_holds m d x i.
Proof.
  intros m d. apply (TriDiagonal_solves m d).
  - simpl. lia.
  - reflexivity.
  - reflexivity.
  - reflexivity.
  - by vm_compute.
  - intros i Hi. simpl in Hi.
    assert (i = 1 ∨ i = 2)%nat as [-> | ->] by lia; by vm_compute.
Defined.

(** ** When the solver fails *)

Lemma TriDiagonal_empty (d : list Qc) : is_Panic (TriDiagonal [] d).
Proof.
  unfold TriDiagonal. case_decide; [by eexists|].
  simpl. by eexists.
Qed.

Lemma zero_denominator_dec (m : list V3.t) :
  Decision (∃ i, (1 ≤ i < length m)%nat ∧ denom m i = 0).
Proof.
  destruct (decide (Exists (λ i, denom m i = 0) (seq 1 (length m - 1))))
    as [He|Hne].
  - left. apply Exists_exists in He as (i & Hi & Hz).
    apply elem_of_seq in Hi. exists i. split; [lia|done].
  - right. intros (i & Hi & Hz). apply Hne, Exists_exists.
    exists i. split; [|done]. apply elem_of_seq. lia.
Qed.

Lemma is_Ok_not_Panic {A} (r : result A) : is_Ok r ↔ ¬ is_Panic r.
Proof.
  destruct r as [a|msg]; split.
  - intros _ [msg' ?]. done.
  - intros _. by exists a.
  - intros [a ?]. done.
  - intros Hn. exfalso. apply Hn. by exists msg.
Qed.

Lemma listed_failure_rows (m : list V3.t) (d : list Qc) :
  (1 ≤ length m)%nat →
  listed_failure m d ↔
    length d ≠ length m
    ∨ V3.X (m !!! 0%nat) ≠ 0
    ∨ V3.Z (m !!! (length m - 1)%nat) ≠ 0
    ∨ V3.Y (m !!! 0%nat) = 0
    ∨ ∃ i, (1 ≤ i < length m)%nat ∧ denom m i = 0.
Proof.
  intros Hn. unfold listed_failure.
  rewrite (list_lookup_lookup_total_lt m 0) by lia.
  rewrite (list_lookup_lookup_total_lt m (length m - 1)) by lia.
  split.
  - intros [?|[(r & [= <-] & ?)|[(r & [= <-] & ?)|[(r & [= <-] & ?)|?]]]];
      eauto 10.
  - intros [?|[?|[?|[?|?]]]]; eauto 10.
Qed.

Lemma TriDiagonal_panic_rows (m : list V3.t) (d : list Qc) :
  (1 ≤ length m)%nat →
  is_Panic (TriDiagonal m d) ↔
    length d ≠ length m
    ∨ V3.X (m !!! 0%nat) ≠ 0
    ∨ V3.Z (m !!! (length m - 1)%nat) ≠ 0
    ∨ V3.Y (m !!! 0%nat) = 0
    ∨ ∃ i, (1 ≤ i < length m)%nat ∧ denom m i = 0.
Proof.
  intros Hn. rewrite TriDiagonal_unfold by done.
  case_decide as Hsz; [split; [by left|by eexists]|].
  case_decide as Hends.
  { split; [|by eexists]. intros _. destruct Hends; eauto. }
  case_decide as HY; [split; [eauto 10|by eexists]|].
  assert (Hd : length d = length m) by by destruct (decide (length d = length m)).
  destruct (zero_denominator_dec m) as [Hz|Hnz].
  - rewrite (elimination_panic m d (length m - 1) 1 _ _ ltac:(lia) ltac:(lia)
               (swept_init m d Hn)).
    + split; [eauto 10|by eexists].
    + destruct Hz as (i & Hi & Hz). exists i. split; [lia|done].
  - destruct (elimination_ok m d (length m - 1) 1 _ _ ltac:(lia) ltac:(lia)
                (swept_init m d Hn)) as (cp & x & -> & _).
    { intros i Hi Hz. apply Hnz. exists i. split; [lia|done]. }
    cbn [mbind result_bind]. split.
    + by intros [msg ?].
    + intros [?|[?|[?|[?|?]]]]; try done; exfalso; apply Hends; eauto.
Qed.

(** C7, as the code has it.  [TriDiagonal] panics, and so returns no
    value, exactly when the system has no rows (the runtime panics on
    [m[0]]) or one of the listed conditions holds: the row count differs
    from the length of the right-hand side, [m[0].X != 0],
    [m[n-1].Z != 0], [m[0].Y == 0], or a denominator of the forward sweep
    is zero.  In every other case it returns a vector. *)
Theorem TriDiagonal_fails_iff (m : list V3.t) (d : list Qc) :
  (is_Panic (TriDiagonal m d) ↔ length m = 0%nat ∨ listed_failure m d)
  ∧ (is_Ok (TriDiagonal m d) ↔ ¬ (length m = 0%nat ∨ listed_failure m d)).
Proof.
  assert (Hp : is_Panic (TriDiagonal m d)
               ↔ length m = 0%nat ∨ listed_failure m d).
  { destruct (decide (length m = 0%nat)) as [Hz|Hnz].
    - split; [by left|]. intros _.
      destruct m; [apply TriDiagonal_empty|done].
    - rewrite TriDiagonal_panic_rows, listed_failure_rows by lia.
      split; [by right|]. by intros [?|?]. }
  split; [done|]. by rewrite is_Ok_not_Panic, Hp.
Qed.

Example TriDiagonal_zero_pivot :
  TriDiagonal [V3.mk 0 2 1; V3.mk 4 2 0] [3; 4] = Panic "denom == 0".
Proof. reflexivity. Qed.

Example TriDiagonal_zero_diagonal :
  TriDiagonal [V3.mk 0 0 1; V3.mk 1 2 0] [3; 4] = Panic "m[0].Y == 0".
Proof. reflexivity. Qed.

Example TriDiagonal_bad_sizes :
  TriDiagonal [V3.mk 0 2 1; V3.mk 1 2 0] [3] = Panic "bad sizes rows(m) != rows(d)".
Proof. reflexivity. Qed.

Example TriDiagonal_bad_values :
  TriDiagonal [V3.mk 0 2 1; V3.mk 1 2 1] [3; 4]
  = Panic "bad values for tridiagonal matrix".
Proof. reflexivity. Qed.

(** C7, counterexample to the claim as stated: the system with no rows
    and an empty right-hand side makes [TriDiagonal] panic although none
    of the listed conditions holds. *)
Lemma TriDiagonal_fails_unlisted :
  is_Panic (TriDiagonal [] []) ∧ ¬ listed_failure [] [].
Proof.
  split; [apply TriDiagonal_empty|].
  unfold listed_failure. simpl.
  intros [?|[(r & ? & _)|[(r & ? & _)|[(r & ? & _)|(i & ? & _)]]]];
    done || lia.
Qed.

(** ** Order facts on exact numbers *)

Lemma Qc_this_eq (x y : Qc) : x = y ↔ (this x == this y)%Q.
Proof. split; [by intros ->|apply Qc_is_canon]. Qed.

(** Move a goal on [Qc] to [Q], where [lra] and [nra] work. *)
Ltac qc_to_q :=
  repeat match goal with
  | H : @eq Qc _ _ |- _ => apply Qc_this_eq in H
  | H : ¬ @eq Qc _ _ |- _ => rewrite Qc_this_eq in H
  | |- @eq Qc _ _ => apply Qc_this_eq
  | |- ¬ @eq Qc _ _ => rewrite Qc_this_eq
  end;
  unfold Qclt, Qcle, Qcdiv, Qcminus, Qcopp, Qcplus, Qcmult, Q2Qc in *;
  cbn [this] in *;
  repeat setoid_rewrite Qred_correct;
  repeat match goal with
  | H : _ |- _ => progress (setoid_rewrite Qred_correct in H)
  end.

Lemma interior_denominator (c : Qc) : 0 < c → 2 * c ≤ 1 → 4 - 1 * c ≠ 0.
Proof. intros H1 H2. qc_to_q. lra. Qed.

Lemma last_denominator (c : Qc) : 0 < c → 2 * c ≤ 1 → 2 - 1 * c ≠ 0.
Proof. intros H1 H2. qc_to_q. lra. Qed.

Lemma interior_cprime (c : Qc) :
  0 < c → 2 * c ≤ 1 → 0 < 1 / (4 - 1 * c) ∧ 2 * (1 / (4 - 1 * c)) ≤ 1.
Proof.
  intros H1 H2.
  pose proof (interior_denominator c H1 H2) as Hnz.
  pose proof (Qcmult_div_r 1 _ Hnz) as Hk.
  remember (4 - 1 * c) as e eqn:He.
  remember (1 / e) as k eqn:Ek. clear Ek Hnz.
  qc_to_q. split; nra.
Qed.

(** ** The system of the natural spline never meets a zero denominator *)

Lemma natural_cprime (m : list V3.t) : natural_rows m →
  ∀ j, (j ≤ length m - 2)%nat → 0 < cprime m j ∧ 2 * cprime m j ≤ 1.
Proof.
  intros (Hn & H0 & Hin & Hl) j. induction j as [|j IH]; intros Hj.
  - simpl. rewrite H0. simpl. split; by vm_compute.
  - simpl. rewrite (Hin (S j)) by lia. simpl.
    apply interior_cprime; apply IH; lia.
Qed.

Lemma natural_denom (m : list V3.t) : natural_rows m →
  ∀ i, (1 ≤ i < length m)%nat → denom m i ≠ 0.
Proof.
  intros Hnat i Hi. pose proof Hnat as (Hn & H0 & Hin & Hl).
  destruct (natural_cprime m Hnat (i - 1)%nat) as [Hpos Hle]; [lia|].
  unfold denom. destruct (decide (i = length m - 1)%nat) as [->|Hne].
  - rewrite Hl. simpl. by apply last_denominator.
  - rewrite Hin by lia. simpl. by apply interior_denominator.
Qed.

Lemma natural_TriDiagonal (m : list V3.t) (d : list Qc) :
  natural_rows m → length d = length m →
  ∃ x, TriDiagonal m d = Ok x ∧ length x = length m ∧
       ∀ i, (i < length m)%nat → row_holds m d x i.
Proof.
  intros Hnat Hd. pose proof Hnat as (Hn & H0 & Hin & Hl).
  apply TriDiagonal_ok_rows; try done.
  - lia.
  - by rewrite H0.
  - by rewrite Hl.
  - rewrite H0. by vm_compute.
  - by apply natural_denom.
Qed.

(** ** The loops of [CubicSpline2D] *)

Lemma interior_rows_spec (knot : list V2.t) ix : ∀ m dx dy,
  let r := interior_rows knot ix m dx dy in
  length r.1.1 = length m ∧ length r.1.2 = length dx
  ∧ length r.2 = length dy
  ∧ (∀ j, j ∈ ix →
       (j < length m)%nat → (j < length dx)%nat → (j < length dy)%nat →
       r.1.1 !!! j = V3.mk 1 4 1
       ∧ r.1.2 !!! j
         = 3 * (V2.X (knot !!! (j + 1)%nat) - V2.X (knot !!! (j - 1)%nat))
       ∧ r.2 !!! j
         = 3 * (V2.Y (knot !!! (j + 1)%nat) - V2.Y (knot !!! (j - 1)%nat)))
  ∧ (∀ j, j ∉ ix →
       r.1.1 !!! j = m !!! j ∧ r.1.2 !!! j = dx !!! j ∧ r.2 !!! j = dy !!! j).
Proof.
  induction ix as [|i ix IH]; intros m dx dy; simpl.
  - split_and!; try done. intros j Hj. by apply elem_of_nil in Hj.
  - specialize (IH (<[i := V3.mk 1 4 1]> m)
      (<[i := 3 * (V2.X (knot !!! (i + 1)%nat) - V2.X (knot !!! (i - 1)%nat))]> dx)
      (<[i := 3 * (V2.Y (knot !!! (i + 1)%nat) - V2.Y (knot !!! (i - 1)%nat))]> dy)).
    simpl in IH. rewrite !length_insert in IH.
    destruct IH as (Hm & Hdx & Hdy & Hin & Hout).
    split_and!; try done.
    + intros j Hj Hjm Hjx Hjy.
      destruct (decide (j ∈ ix)) as [Hmem|Hnot]; [by apply Hin|].
      apply elem_of_cons in Hj as [->|?]; [|done].
      destruct (Hout i Hnot) as (-> & -> & ->).
      by rewrite !list_lookup_total_insert_eq by done.
    + intros j Hj. apply not_elem_of_cons in Hj as [Hne Hnot].
      destruct (Hout j Hnot) as (-> & -> & ->).
      by rewrite !list_lookup_total_insert_ne by done.
Qed.

Lemma fill_segments_spec (knot : list V2.t) (xx xy : list Qc) ix : ∀ sp,
  let r := fill_segments knot xx xy ix sp in
  length r = length sp
  ∧ (∀ j, j ∈ ix → (j < length sp)%nat → r !!! j = segment_of knot xx xy j)
  ∧ (∀ j, j ∉ ix → r !!! j = sp !!! j).
Proof.
  induction ix as [|i ix IH]; intros sp; simpl.
  - split_and!; try done. intros j Hj. by apply elem_of_nil in Hj.
  - match goal with
    | |- context [fill_segments _ _ _ _ ?sp'] => specialize (IH sp')
    end.
    simpl in IH. rewrite length_insert in IH.
    destruct IH as (Hlen & Hin & Hout).
    split_and!; try done.
    + intros j Hj Hjs.
      destruct (decide (j ∈ ix)) as [Hmem|Hnot]; [by apply Hin|].
      apply elem_of_cons in Hj as [->|?]; [|done].
      rewrite (Hout i Hnot).
      by rewrite list_lookup_total_insert_eq by done.
    + intros j Hj. apply not_elem_of_cons in Hj as [Hne Hnot].
      rewrite (Hout j Hnot).
      by rewrite list_lookup_total_insert_ne by done.
Qed.

Lemma fill_segments_all (knot : list V2.t) (xx xy : list Qc) (k : nat) :
  fill_segments knot xx xy (seq 0 k) (replicate k Spline.zero)
  = segment_of knot xx xy <$> seq 0 k.
Proof.
  destruct (fill_segments_spec knot xx xy (seq 0 k) (replicate k Spline.zero))
    as (Hlen & Hin & _).
  rewrite length_replicate in Hlen, Hin.
  apply list_eq. intros j.
  destruct (decide (j < k)%nat) as [Hj|Hj].
  - rewrite list_lookup_lookup_total_lt by lia.
    rewrite Hin by (done || apply elem_of_seq; lia).
    rewrite list_lookup_fmap.
    by rewrite lookup_seq_lt by done.
  - rewrite !lookup_ge_None_2; [done| |lia].
    rewrite length_fmap, length_seq. lia.
Qed.

(** ** The fitted curve *)

Lemma default_lookup_total (x : list Qc) (i : nat) :
  default 0 (x !! i) = x !!! i.
Proof. by rewrite list_lookup_total_alt. Qed.

Lemma rows_natural_system (coord : V2.t → Qc) (knot : list V2.t)
    (m : list V3.t) (d x : list Qc) :
  natural_rows m → length m = length knot → length x = length m →
  d !!! 0%nat = 3 * (coord (knot !!! 1%nat) - coord (knot !!! 0%nat)) →
  (∀ i, (1 ≤ i < length knot - 1)%nat →
     d !!! i = 3 * (coord (knot !!! (i + 1)%nat) - coord (knot !!! (i - 1)%nat))) →
  d !!! (length knot - 1)%nat
  = 3 * (coord (knot !!! (length knot - 1)%nat)
         - coord (knot !!! (length knot - 2)%nat)) →
  (∀ i, (i < length m)%nat → row_holds m d x i) →
  natural_system coord knot x.
Proof.
  intros (Hn & H0 & Hin & Hl) Hm Hx Hd0 Hdi Hdl Hrows.
  unfold natural_system. split_and!.
  - by rewrite Hx.
  - pose proof (Hrows 0%nat ltac:(lia)) as Hr. unfold row_holds in Hr.
    rewrite H0, Hd0 in Hr. simpl in Hr.
    rewrite default_lookup_total in Hr. rewrite <-Hr. ring.
  - intros i Hi.
    pose proof (Hrows i ltac:(lia)) as Hr. unfold row_holds in Hr.
    rewrite Hin, Hdi in Hr by lia. simpl in Hr.
    rewrite default_lookup_total in Hr. rewrite <-Hr.
    destruct i as [|j]; [lia|].
    replace (S j - 1)%nat with j by lia.
    replace (S j + 1)%nat with (S (S j)) by lia. ring.
  - pose proof (Hrows (length m - 1)%nat ltac:(lia)) as Hr.
    unfold row_holds in Hr. rewrite Hl in Hr. simpl in Hr.
    rewrite Hm in Hr. rewrite Hdl in Hr. rewrite <-Hr.
    destruct (length knot - 1)%nat as [|j] eqn:Ej; [lia|].
    replace (length knot - 2)%nat with j by lia. ring.
Qed.

Section Fitted.
Variable quadratic : Qc → Qc → Qc → list Qc.

Lemma CubicSpline2D_fitted (knot : list V2.t) :
  (2 ≤ length knot)%nat →
  ∃ xx xy box,
    natural_system V2.X knot xx ∧ natural_system V2.Y knot xy ∧
    CubicSpline2D quadratic knot
    = Ok {| spline := segment_of knot xx xy <$> seq 0 (length knot - 1);
            bb := box |}.
Proof.
  intros Hn. unfold CubicSpline2D.
  rewrite decide_False by lia.
  pose proof (interior_rows_spec knot (seq 1 (length knot - 2))
    (replicate (length knot) V3.zero) (replicate (length knot) 0)
    (replicate (length knot) 0)) as Hspec.
  destruct (interior_rows knot _ _ _ _) as [[m dx] dy].
  simpl in Hspec. rewrite !length_replicate in Hspec.
  destruct Hspec as (Hm & Hdx & Hdy & Hin & _).
  assert (Hint : ∀ i, (1 ≤ i < length knot - 1)%nat →
    m !!! i = V3.mk 1 4 1
    ∧ dx !!! i = 3 * (V2.X (knot !!! (i + 1)%nat) - V2.X (knot !!! (i - 1)%nat))
    ∧ dy !!! i = 3 * (V2.Y (knot !!! (i + 1)%nat) - V2.Y (knot !!! (i - 1)%nat))).
  { intros i Hi. apply Hin; try lia. apply elem_of_seq. lia. }
  clear Hin.
  set (m' := <[(length knot - 1)%nat := V3.mk 1 2 0]> (<[0%nat := V3.mk 0 2 1]> m)).
  assert (Hm' : length m' = length knot)
    by (subst m'; by rewrite !length_insert).
  assert (Hnat : natural_rows m').
  { unfold natural_rows. rewrite Hm'. subst m'. split_and!.
    - done.
    - rewrite list_lookup_total_insert_ne by lia.
      by rewrite list_lookup_total_insert_eq by lia.
    - intros i Hi. rewrite !list_lookup_total_insert_ne by lia.
      by apply Hint.
    - by rewrite list_lookup_total_insert_eq by (rewrite length_insert; lia). }
  match goal with
  | |- context [TriDiagonal m' (<[?i := 3 * (V2.X ?u - V2.X ?v)]> ?w)] =>
      destruct (natural_TriDiagonal m' (<[i := 3 * (V2.X u - V2.X v)]> w) Hnat)
        as (xx & -> & Hxx & Hrx);
        [by rewrite !length_insert, Hm'|]
  end.
  cbn [mbind result_bind].
  match goal with
  | |- context [TriDiagonal m' (<[?i := 3 * (V2.Y ?u - V2.Y ?v)]> ?w)] =>
      destruct (natural_TriDiagonal m' (<[i := 3 * (V2.Y u - V2.Y v)]> w) Hnat)
        as (xy & -> & Hxy & Hry);
        [by rewrite !length_insert, Hm'|]
  end.
  cbn [mbind result_bind].
  rewrite fill_segments_all.
  eexists xx, xy, _. split_and!; [| |done].
  - eapply rows_natural_system; [done..| | | |done].
    + rewrite list_lookup_total_insert_ne by lia.
      by rewrite list_lookup_total_insert_eq by lia.
    + intros i Hi. rewrite !list_lookup_total_insert_ne by lia.
      by apply Hint.
    + by rewrite list_lookup_total_insert_eq by (rewrite length_insert; lia).
  - eapply rows_natural_system; [done..| | | |done].
    + rewrite list_lookup_total_insert_ne by lia.
      by rewrite list_lookup_total_insert_eq by lia.
    + intros i Hi. rewrite !list_lookup_total_insert_ne by lia.
      by apply Hint.
    + by rewrite list_lookup_total_insert_eq by (rewrite length_insert; lia).
Qed.
End Fitted.

(** ** Cubic polynomials in Hermite form *)

Lemma Poly_f0_Set_0 (y0 y1 D0 D1 : Qc) :
  Poly.f0 (Poly.Set_ y0 y1 D0 D1) 0 = y0.
Proof. unfold Poly.f0, Poly.Set_. cbn [a b c d]. assert (y0 + 0 * D0 = y0) by ring. assert (y0 + 0 * (D0 + 0 * D1) = y0) by ring. assert (3 * y0  = y0 + 2 * y0) by ring.  assert (y0 + 0 * ((2 * (y0 - y1) + D0 + D1) * 0) = y0) by ring. ring. Qed.

Lemma Poly_f0_Set_1 (y0 y1 D0 D1 : Qc) :
  Poly.f0 (Poly.Set_ y0 y1 D0 D1) 1 = y1.
Proof. unfold Poly.f0, Poly.Set_. cbn [a b c d]. ring. Qed.

Lemma Poly_f2_Set_0 (y0 y1 D0 D1 : Qc) :
  2 * D0 + D1 = 3 * (y1 - y0) →
  Poly.f2 (Poly.Set_ y0 y1 D0 D1) 0 = 0.
Proof.
  intros E. unfold Poly.f2, Poly.Set_. cbn [a b c d].
  trans (2 * (3 * (y1 - y0) - (2 * D0 + D1))); [ring|].
  rewrite E. ring.
Qed.

Lemma Poly_f2_Set_1 (y0 y1 D0 D1 : Qc) :
  D0 + 2 * D1 = 3 * (y1 - y0) →
  Poly.f2 (Poly.Set_ y0 y1 D0 D1) 1 = 0.
Proof.
  intros E. unfold Poly.f2, Poly.Set_. cbn [a b c d].
  trans (2 * ((D0 + 2 * D1) - 3 * (y1 - y0))); [ring|].
  rewrite E. ring.
Qed.

Lemma segment_of_f0 (knot : list V2.t) (xx xy : list Qc) (i : nat) :
  Spline.f0 (segment_of knot xx xy i) 0 = knot !!! i
  ∧ Spline.f0 (segment_of knot xx xy i) 1 = knot !!! (i + 1)%nat.
Proof.
  unfold Spline.f0, segment_of. simpl.
  rewrite !Poly_f0_Set_0, !Poly_f0_Set_1.
  by destruct (knot !!! i), (knot !!! (i + 1)%nat).
Qed.

Lemma lookup_total_segments (knot : list V2.t) (xx xy : list Qc) (k i : nat) :
  (i < k)%nat →
  (segment_of knot xx xy <$> seq 0 k) !!! i = segment_of knot xx xy i.
Proof.
  intros Hi. apply list_lookup_total_correct.
  rewrite list_lookup_fmap. by rewrite lookup_seq_lt by done.
Qed.

(** ** The global parameter *)

Lemma int_float64 (z : Z) : int (float64 z) = z.
Proof. unfold int, float64. simpl. apply Z.quot_1_r. Qed.

Lemma float64_0 : float64 0 = 0.
Proof. apply Z2Qc_inj_0. Qed.

Lemma float64_nonneg (n : nat) : 0 ≤ float64 (Z.of_nat n).
Proof.
  rewrite <-float64_0. unfold float64.
  apply (proj1 (Z2Qc_inj_le _ _)). lia.
Qed.

Lemma Clamp_below (x lo hi : Qc) : x ≤ lo → lo ≤ hi → Clamp x lo hi = lo.
Proof.
  intros Hx Hlh. unfold Clamp. case_decide; [done|].
  rewrite decide_False; [by apply (anti_symm Qcle); [|apply Qcnot_lt_le]|].
  apply Qcle_not_lt. by trans lo.
Qed.

Lemma Clamp_above (x lo hi : Qc) : hi ≤ x → lo ≤ hi → Clamp x lo hi = hi.
Proof.
  intros Hx Hlh. unfold Clamp.
  rewrite decide_False by (apply Qcle_not_lt; by trans hi).
  case_decide as Hlt; [done|].
  apply (anti_symm Qcle); [by apply Qcnot_lt_le|done].
Qed.

Lemma Clamp_range (x lo hi : Qc) :
  lo ≤ hi → lo ≤ Clamp x lo hi ∧ Clamp x lo hi ≤ hi.
Proof.
  intros Hlh. unfold Clamp. repeat case_decide; split; try done.
  - by apply Qcnot_lt_le.
  - by apply Qcnot_lt_le.
Qed.

Lemma Clamp_idemp (x lo hi : Qc) :
  lo ≤ hi → Clamp (Clamp x lo hi) lo hi = Clamp x lo hi.
Proof.
  intros Hlh. destruct (Clamp_range x lo hi Hlh) as [H1 H2].
  unfold Clamp at 1.
  rewrite decide_False by by apply Qcle_not_lt.
  by rewrite decide_False by by apply Qcle_not_lt.
Qed.

(** Truncation of a number in [0, n]. *)
Lemma int_range (c : Qc) (n : Z) :
  0 ≤ c → c ≤ float64 n →
  (0 ≤ int c ≤ n)%Z ∧ 0 ≤ c - float64 (int c) ∧ c - float64 (int c) ≤ 1.
Proof.
  intros H0 Hn. unfold int.
  destruct c as [[a b] Hc]. simpl.
  unfold Qcle in H0, Hn. unfold Qle in H0, Hn. simpl in H0, Hn.
  assert (Ha : (0 ≤ a)%Z) by lia.
  rewrite Z.quot_div_nonneg by lia.
  pose proof (Z.mul_div_le a (Z.pos b) ltac:(lia)) as Hlo.
  pose proof (Z.mul_succ_div_gt a (Z.pos b) ltac:(lia)) as Hhi.
  split.
  - split; [apply Z.div_pos; lia|].
    apply Z.div_le_upper_bound; lia.
  - set (q := (a / Z.pos b)%Z) in *. clearbody q.
    unfold float64. split.
    + qc_to_q. unfold Qle. simpl. nia.
    + qc_to_q. unfold Qle. simpl. nia.
Qed.

Lemma Find_unfold (s : CubicSplineSDF2) (t : Qc) :
  Find s t =
    let n := Z.of_nat (length (spline s)) in
    let c := Clamp t 0 (float64 n) in
    if decide (int c = n)
    then _ ← index (spline s) (n - 1)%Z; Ok (Z.to_nat (n - 1), 1)
    else _ ← index (spline s) (int c); Ok (Z.to_nat (int c), c - float64 (int c)).
Proof. unfold Find. cbv zeta. case_decide as H; [by rewrite H|done]. Qed.

Lemma Find_clamps (s : CubicSplineSDF2) (t : Qc) :
  Find s t = Find s (Clamp t 0 (float64 (Z.of_nat (length (spline s))))).
Proof.
  rewrite !Find_unfold. simpl.
  by rewrite Clamp_idemp by apply float64_nonneg.
Qed.

Lemma Find_integer (s : CubicSplineSDF2) (i : nat) :
  (i < length (spline s))%nat → Find s (float64 (Z.of_nat i)) = Ok (i, 0).
Proof.
  intros Hi. rewrite Find_unfold. simpl.
  assert (Hc : Clamp (float64 (Z.of_nat i)) 0
                 (float64 (Z.of_nat (length (spline s))))
               = float64 (Z.of_nat i)).
  { unfold Clamp.
    rewrite decide_False by (apply Qcle_not_lt, float64_nonneg).
    rewrite decide_False; [done|].
    apply Qcle_not_lt. unfold float64.
    apply (proj1 (Z2Qc_inj_le _ _)). lia. }
  rewrite Hc, int_float64.
  rewrite decide_False by lia.
  rewrite index_ok by done. cbn [mbind result_bind].
  rewrite Nat2Z.id. f_equal. f_equal. ring.
Qed.

Lemma Find_last (s : CubicSplineSDF2) (t : Qc) :
  (1 ≤ length (spline s))%nat →
  float64 (Z.of_nat (length (spline s))) ≤ t →
  Find s t = Ok ((length (spline s) - 1)%nat, 1).
Proof.
  intros Hn Ht. rewrite Find_unfold. simpl.
  rewrite Clamp_above by (done || apply float64_nonneg).
  rewrite int_float64. rewrite decide_True by done.
  replace (Z.of_nat (length (spline s)) - 1)%Z
    with (Z.of_nat (length (spline s) - 1)) by lia.
  rewrite index_ok by lia. cbn [mbind result_bind].
  by rewrite Nat2Z.id.
Qed.

Lemma Find_first (s : CubicSplineSDF2) (t : Qc) :
  (1 ≤ length (spline s))%nat → t ≤ 0 → Find s t = Ok (0%nat, 0).
Proof.
  intros Hn Ht. rewrite Find_clamps.
  rewrite Clamp_below by (done || apply float64_nonneg).
  pose proof (Find_integer s 0 ltac:(lia)) as H.
  change (Z.of_nat 0) with 0%Z in H. by rewrite float64_0 in H.
Qed.

(** A curve without segments cannot be built by [CubicSpline2D]; on such a
    value [Find] indexes segment [-1]. *)
Example Find_no_segments (box : Box2) (t : Qc) :
  Find (mkSDF2 [] box) t = Panic "index out of range".
Proof.
  rewrite Find_unfold. cbn [spline length]. change (Z.of_nat 0) with 0%Z.
  rewrite float64_0.
  destruct (Clamp_range t 0 0) as [Hlo Hhi]; [done|].
  assert (Hc : Clamp t 0 0 = 0) by apply (anti_symm Qcle _ _ Hhi Hlo).
  by rewrite Hc.
Qed.

Lemma Find_in_bounds (s : CubicSplineSDF2) (t : Qc) :
  (1 ≤ length (spline s))%nat →
  ∃ i t', Find s t = Ok (i, t') ∧ (i < length (spline s))%nat
          ∧ 0 ≤ t' ∧ t' ≤ 1.
Proof.
  intros Hn. rewrite Find_unfold. simpl.
  destruct (Clamp_range t 0 (float64 (Z.of_nat (length (spline s)))))
    as [Hlo Hhi]; [apply float64_nonneg|].
  destruct (int_range _ _ Hlo Hhi) as ([Hi0 Hin] & Ht0 & Ht1).
  case_decide as Hend.
  - replace (Z.of_nat (length (spline s)) - 1)%Z
      with (Z.of_nat (length (spline s) - 1)) by lia.
    rewrite index_ok by lia. cbn [mbind result_bind].
    eexists _, _. split; [done|]. rewrite Nat2Z.id.
    split; [lia|]. split; by vm_compute.
  - set (i := int _) in *.
    rewrite index_ok_Z by lia. cbn [mbind result_bind].
    eexists _, _. split; [done|]. split; [lia|done].
Qed.

(** ** The claims on the fitted curve *)

Lemma length_segments (knot : list V2.t) (xx xy : list Qc) (k : nat) :
  length (segment_of knot xx xy <$> seq 0 k) = k.
Proof. by rewrite length_fmap, length_seq. Qed.

Section FittedCurve.
Variable quadratic : Qc → Qc → Qc → list Qc.


(** C3.  The curve fitted through [N >= 2] knots has zero second
    derivative at both ends: [px.f2(0)] and [py.f2(0)] of the first
    segment and [px.f2(1)] and [py.f2(1)] of the last segment are zero, in
    exact arithmetic. *)
Theorem CubicSpline2D_natural (knot : list V2.t) :
  (2 ≤ length knot)%nat →
  ∃ s, CubicSpline2D quadratic knot = Ok s
    ∧ Poly.f2 (px (spline s !!! 0%nat)) 0 = 0
    ∧ Poly.f2 (py (spline s !!! 0%nat)) 0 = 0
    ∧ Poly.f2 (px (spline s !!! (length knot - 2)%nat)) 1 = 0
    ∧ Poly.f2 (py (spline s !!! (length knot - 2)%nat)) 1 = 0.
Proof.
  intros Hn.
  destruct (CubicSpline2D_fitted quadratic knot Hn)
    as (xx & xy & box & Hx & Hy & E).
  eexists. split; [exact E|]. cbn [spline].
  rewrite !lookup_total_segments by lia.
  destruct Hx as (_ & Hx0 & _ & Hxl). destruct Hy as (_ & Hy0 & _ & Hyl).
  unfold segment_of. cbn [px py].
  replace (length knot - 2 + 1)%nat with (length knot - 1)%nat by lia.
  split_and!.
  - by apply Poly_f2_Set_0.
  - by apply Poly_f2_Set_0.
  - by apply Poly_f2_Set_1.
  - by apply Poly_f2_Set_1.
Qed.

(** C6.  On the curve fitted through [N >= 2] knots, [Find(0)] is segment
    0 with local [t = 0] and [Find(N-1)] is segment [N-2] with local
    [t = 1]; a parameter below 0 or above [N-1] is clamped, giving the
    first segment at 0 or the last at 1; and for every parameter [Find]
    returns a segment of the curve and a local [t] in [0, 1]. *)
Theorem Find_boundaries (knot : list V2.t) :
  (2 ≤ length knot)%nat →
  ∃ s, CubicSpline2D quadratic knot = Ok s
    ∧ length (spline s) = (length knot - 1)%nat
    ∧ Find s 0 = Ok (0%nat, 0)
    ∧ Find s (float64 (Z.of_nat (length knot - 1)))
      = Ok ((length knot - 2)%nat, 1)
    ∧ (∀ t, t < 0 → Find s t = Ok (0%nat, 0))
    ∧ (∀ t, float64 (Z.of_nat (length knot - 1)) < t →
         Find s t = Ok ((length knot - 2)%nat, 1))
    ∧ (∀ t, Find s t
            = Find s (Clamp t 0 (float64 (Z.of_nat (length knot - 1)))))
    ∧ (∀ t, ∃ i t', Find s t = Ok (i, t')
                    ∧ (i < length knot - 1)%nat ∧ 0 ≤ t' ∧ t' ≤ 1).
Proof.
  intros Hn.
  destruct (CubicSpline2D_fitted quadratic knot Hn) as (xx & xy & box & _ & _ & E).
  eexists. split; [exact E|].
  set (s := {| spline := _; bb := box |}).
  assert (Hlen : length (spline s) = (length knot - 1)%nat)
    by apply length_segments.
  replace (length knot - 2)%nat with (length (spline s) - 1)%nat by lia.
  rewrite <-Hlen. split_and!.
  - done.
  - by apply Find_first; [lia|].
  - by apply Find_last; [lia|].
  - intros t Ht. apply Find_first; [lia|]. by apply Qclt_le_weak.
  - intros t Ht. apply Find_last; [lia|]. by apply Qclt_le_weak.
  - intros t. apply Find_clamps.
  - intros t. apply Find_in_bounds. lia.
Qed.
End FittedCurve.


Lemma CubicSpline2D_natural_witness :
  let knot := [V2.mk 0 0; V2.mk 1 3; V2.mk 2 2] in
  ∃ s, CubicSpline2D (λ _ _ _, []) knot = Ok s
    ∧ Poly.f2 (px (spline s !!! 0%nat)) 0 = 0
    ∧ Poly.f2 (py (spline s !!! 0%nat)) 0 = 0
    ∧ Poly.f2 (px (spline s !!! (length knot - 2)%nat)) 1 = 0
    ∧ Poly.f2 (py (spline s !!! (length knot - 2)%nat)) 1 = 0.
Proof.
  intros knot. apply (CubicSpline2D_natural (λ _ _ _, []) knot).
  simpl. lia.
Defined.

Lemma Find_boundaries_witness :
  let knot := [V2.mk 0 0; V2.mk 1 3; V2.mk 2 2] in
  ∃ s, CubicSpline2D (λ _ _ _, []) knot = Ok s
    ∧ length (spline s) = 2%nat
    ∧ Find s 0 = Ok (0%nat, 0)
    ∧ Find s (float64 2) = Ok (1%nat, 1)
    ∧ (∀ t, t < 0 → Find s t = Ok (0%nat, 0))
    ∧ (∀ t, float64 2 < t → Find s t = Ok (1%nat, 1))
    ∧ (∀ t, Find s t = Find s (Clamp t 0 (float64 2)))
    ∧ (∀ t, ∃ i t', Find s t = Ok (i, t')
                    ∧ (i < 2)%nat ∧ 0 ≤ t' ∧ t' ≤ 1).
Proof.
  intros knot. apply (Find_boundaries (λ _ _ _, []) knot).
  simpl. lia.
Defined.

(** C9.  The distance query of the spline curve returns exactly 0, for
    every point and every curve. *)
Theorem Evaluate_zero (s : CubicSplineSDF2) (p : V2.t) : Evaluate s p = 0.
Proof. reflexivity. Qed.

(** ** The renderer: the first statement of a pass *)

Lemma set_alpha_length fuel : ∀ i pix, length (set_alpha fuel i pix) = length pix.
Proof.
  induction fuel as [|fuel IH]; intros i pix; simpl; [done|].
  case_decide; [|done]. by rewrite IH, length_insert.
Qed.

Lemma set_alpha_lookup fuel : ∀ i pix j,
  set_alpha fuel i pix !! j =
    if decide (i ≤ j ∧ (j - i) mod 4 = 0 ∧ (j - i) / 4 < fuel
               ∧ j < length pix)%nat
    then Some 255%Z else pix !! j.
Proof.
  induction fuel as [|fuel IH]; intros i pix j; cbn [set_alpha].
  - rewrite decide_False by lia. done.
  - case_decide as Hi.
    + rewrite IH, length_insert.
      destruct (decide (j = i)) as [->|Hne].
      * rewrite decide_False by lia.
        rewrite list_lookup_insert_eq by done.
        rewrite decide_True; [done|].
        rewrite Nat.sub_diag.
        split_and!; rewrite ?Nat.Div0.mod_0_l, ?Nat.Div0.div_0_l; lia.
      * rewrite list_lookup_insert_ne by done.
        destruct (decide (i + 4 ≤ j)%nat) as [Hge|Hlt].
        -- replace (j - i)%nat with ((j - (i + 4)) + 1 * 4)%nat by lia.
           rewrite Nat.Div0.mod_add, Nat.div_add by lia.
           repeat case_decide; try done; lia.
        -- rewrite decide_False by lia.
           case_decide as Hc; [|done].
           destruct Hc as (Hij & Hmod & _ & _).
           assert ((j - i) < 4)%nat by lia.
           rewrite Nat.mod_small in Hmod by lia. lia.
    + rewrite decide_False; [done|]. intros (Hij & _ & _ & Hj). lia.
Qed.

Lemma init_raster_wf (p : image.RGBA) : image.wf p → image.wf (init_raster p).
Proof. unfold image.wf, init_raster. simpl. by rewrite set_alpha_length. Qed.

(** After the first statement of a pass the alpha byte of every pixel of
    a raster is 255 and the colour bytes are as they were. *)
Lemma init_raster_alpha (p : image.RGBA) (q : nat) :
  image.wf p → (q < image.W p * image.H p)%nat →
  image.Pix (init_raster p) !! (4 * q + 3)%nat = Some image.opaque
  ∧ ∀ k, (k < 3)%nat →
      image.Pix (init_raster p) !! (4 * q + k)%nat = image.Pix p !! (4 * q + k)%nat.
Proof.
  unfold image.wf. intros Hwf Hq. unfold init_raster. cbn [image.Pix]. split.
  - rewrite set_alpha_lookup. rewrite decide_True; [done|].
    replace (4 * q + 3 - 3)%nat with (q * 4)%nat by lia.
    rewrite Nat.Div0.mod_mul, Nat.div_mul by lia. lia.
  - intros k Hk. rewrite set_alpha_lookup. rewrite decide_False; [done|].
    intros (Hle & Hmod & _).
    replace (4 * q + k - 3)%nat with ((k + 1) + (q - 1) * 4)%nat in Hmod by lia.
    rewrite Nat.Div0.mod_add in Hmod. rewrite Nat.mod_small in Hmod by lia. lia.
Qed.

(** C4, the code at a one-pixel raster whose four bytes are 0: the first
    statement of the pass leaves the alpha byte at 255, the value of a
    fully opaque pixel, where a fully transparent pixel has alpha 0. *)
Theorem init_raster_not_transparent :
  let fullRender := image.mk [0; 0; 0; 0]%Z 1 1 in
  image.wf fullRender
  ∧ image.Pix (init_raster fullRender) = [0; 0; 0; 255]%Z
  ∧ image.Pix (init_raster fullRender) !! 3%nat = Some image.opaque
  ∧ image.Pix (init_raster fullRender) !! 3%nat ≠ Some image.transparent.
Proof. by split_and!. Qed.

(** ** The renderer: the cached pixel order *)

Lemma fill_indices_spec ix : ∀ l,
  length (fill_indices ix l) = length l
  ∧ (∀ j, j ∈ ix → (j < length l)%nat → fill_indices ix l !! j = Some j)
  ∧ (∀ j, j ∉ ix → fill_indices ix l !! j = l !! j).
Proof.
  induction ix as [|i ix IH]; intros l; simpl.
  - split_and!; try done. intros j Hj. by apply elem_of_nil in Hj.
  - destruct (IH (<[i := i]> l)) as (Hlen & Hin & Hout).
    rewrite length_insert in Hlen, Hin.
    split_and!; try done.
    + intros j Hj Hjl.
      destruct (decide (j ∈ ix)) as [Hmem|Hnot]; [by apply Hin|].
      apply elem_of_cons in Hj as [->|?]; [|done].
      rewrite (Hout i Hnot). by apply list_lookup_insert_eq.
    + intros j Hj. apply not_elem_of_cons in Hj as [Hne Hnot].
      rewrite (Hout j Hnot). by apply list_lookup_insert_ne.
Qed.

Lemma fill_indices_seq (n : nat) :
  fill_indices (seq 0 n) (replicate n 0%nat) = seq 0 n.
Proof.
  destruct (fill_indices_spec (seq 0 n) (replicate n 0%nat)) as (Hlen & Hin & _).
  rewrite length_replicate in Hlen, Hin.
  apply list_eq. intros j.
  destruct (decide (j < n)%nat) as [Hj|Hj].
  - rewrite Hin by (done || apply elem_of_seq; lia).
    by rewrite lookup_seq_lt by done.
  - rewrite !lookup_ge_None_2; [done| |lia]. by rewrite length_seq; lia.
Qed.

Lemma swap_Permutation (l : list nat) (i j : nat) :
  (i < length l)%nat → (j < length l)%nat → swap l i j ≡ₚ l.
Proof.
  intros Hi Hj. unfold swap.
  apply Permutation_insert_swap; by apply list_lookup_lookup_total_lt.
Qed.

Lemma Shuffle_from_Permutation (rnd : nat → nat) (i : nat) : ∀ l,
  (i < length l)%nat → Shuffle_from rnd i l ≡ₚ l.
Proof.
  induction i as [|i IH]; intros l Hi; [done|].
  cbn [Shuffle_from].
  assert (Hj : (rnd (S i) `mod` (S i + 1) < length l)%nat).
  { pose proof (Nat.mod_upper_bound (rnd (S i)) (S i + 1)). lia. }
  pose proof (swap_Permutation l (S i) _ Hi Hj) as Hsw.
  rewrite IH; [done|]. rewrite (Permutation_length Hsw). lia.
Qed.

Lemma Shuffle_Permutation (rnd : nat → nat) (l : list nat) :
  Shuffle rnd (length l) l ≡ₚ l.
Proof.
  unfold Shuffle. destruct l as [|x l]; [done|].
  apply Shuffle_from_Permutation. simpl. lia.
Qed.

Section PixelOrder.
Context {SDF3 : Type}.
Implicit Types r : @renderer3 SDF3.

Lemma updatePixelsRand_changed rnd r (pixelCount : nat) :
  pixelCount ≠ length (pixelsRand r) →
  pixelsRand (updatePixelsRand rnd r pixelCount)
  = Shuffle rnd pixelCount (seq 0 pixelCount).
Proof.
  intros Hne. unfold updatePixelsRand. rewrite decide_True by done.
  cbn [pixelsRand]. rewrite fill_indices_seq. by rewrite length_seq.
Qed.

Lemma updatePixelsRand_same rnd r (pixelCount : nat) :
  pixelCount = length (pixelsRand r) → updatePixelsRand rnd r pixelCount = r.
Proof.
  intros He. unfold updatePixelsRand.
  rewrite decide_False; [done|]. intros Hne. by apply Hne.
Qed.

Lemma updatePixelsRand_s rnd r (pixelCount : nat) :
  s (updatePixelsRand rnd r pixelCount) = s r.
Proof. unfold updatePixelsRand. by case_decide. Qed.

Lemma updatePixelsRand_Permutation rnd r (pixelCount : nat) :
  pixelsRand r ≡ₚ seq 0 (length (pixelsRand r)) →
  pixelsRand (updatePixelsRand rnd r pixelCount) ≡ₚ seq 0 pixelCount.
Proof.
  intros Hinv. destruct (decide (pixelCount = length (pixelsRand r))) as [He|Hne].
  - rewrite updatePixelsRand_same by done. by rewrite He.
  - rewrite updatePixelsRand_changed by done.
    pose proof (Shuffle_Permutation rnd (seq 0 pixelCount)) as Hs.
    by rewrite length_seq in Hs.
Qed.

Lemma after_passes_snoc (shape : SDF3) history p :
  after_passes shape (history ++ [p])
  = updatePixelsRand p.1 (after_passes shape history) (p.2.1 * p.2.2).
Proof. unfold after_passes. by rewrite foldl_snoc. Qed.

Lemma after_passes_Permutation (shape : SDF3) history :
  pixelsRand (after_passes shape history)
  ≡ₚ seq 0 (length (pixelsRand (after_passes shape history))).
Proof.
  induction history as [|p history IH] using rev_ind; [done|].
  rewrite after_passes_snoc.
  pose proof (updatePixelsRand_Permutation p.1 _ (p.2.1 * p.2.2) IH) as Hp.
  by rewrite (Permutation_length Hp), length_seq.
Qed.

Lemma after_passes_s (shape : SDF3) history :
  s (after_passes shape history) = shape.
Proof.
  induction history as [|p history IH] using rev_ind; [done|].
  by rewrite after_passes_snoc, updatePixelsRand_s.
Qed.

(** C5, as the code has it.  In every pass of a renderer, whatever
    passes came before: when the pixel count [w*h] of the pass differs
    from the length of the cached order, the order is regenerated, as a
    fresh shuffle of [0 .. w*h-1]; when it is the same, and so also when
    the resolution changed to another one with the same pixel count, the
    cached order is kept; either way the order the pass works with is a
    permutation of [0 .. w*h-1]. *)
Theorem pixelsRand_permutation (shape : SDF3)
    (history : list ((nat → nat) * (nat * nat)))
    (rnd : nat → nat) (w h : nat) :
  let r := after_passes shape history in
  let r' := updatePixelsRand rnd r (w * h) in
  ((w * h)%nat ≠ length (pixelsRand r) →
     pixelsRand r' = Shuffle rnd (w * h) (seq 0 (w * h)))
  ∧ ((w * h)%nat = length (pixelsRand r) → pixelsRand r' = pixelsRand r)
  ∧ pixelsRand r' ≡ₚ seq 0 (w * h).
Proof.
  intros r r'. subst r'. split_and!.
  - apply updatePixelsRand_changed.
  - intros He. by rewrite updatePixelsRand_same.
  - apply updatePixelsRand_Permutation, after_passes_Permutation.
Qed.
End PixelOrder.

(** C5, counterexample to the claim as stated: after a pass at 2x3, a
    pass at 3x2 is a change of resolution, yet the cached order is the one
    of the first pass and not the shuffle of the second. *)
Lemma pixelsRand_kept_on_resolution_change :
  let r := after_passes tt [(λ _, 0%nat, (2, 3)%nat)] in
  let r' := updatePixelsRand (λ i, i) r (3 * 2) in
  (2, 3)%nat ≠ (3, 2)%nat
  ∧ pixelsRand r' = pixelsRand r
  ∧ pixelsRand r' ≠ Shuffle (λ i, i) (3 * 2) (seq 0 (3 * 2)).
Proof. by split_and!. Qed.

(** ** The renderer: the collector loop and the end of a pass *)

Section Collector.
Context {SDF3 RendererState M44 : Type}.
Variable camera : RendererState → nat * nat → V3.t * V3.t * M44 * V2.t.
Implicit Types (r : @renderer3 SDF3) (e : @pixelRender M44).
Implicit Types (jobResults : list (@pixelRender M44)).

Lemma pixelLoop_nil_sends ctx jobResults : ∀ pixelNum fullRender sends,
  (pixelLoop ctx ChanNil jobResults pixelNum fullRender sends).1.2 = sends.
Proof.
  induction jobResults as [|e jobResults IH]; intros pixelNum fullRender sends;
    cbn [pixelLoop]; [done|].
  case_decide; [|apply IH].
  destruct (ctx (S pixelNum)); [done|].
  rewrite decide_False by (intros Hne; by apply Hne). apply IH.
Qed.

Lemma pixelLoop_uncancelled ctx partialRender jobResults :
  (∀ n, ctx n = None) → ∀ pixelNum fullRender sends,
  ∃ sends', pixelLoop ctx partialRender jobResults pixelNum fullRender sends
            = (foldl write_result fullRender jobResults, sends', None).
Proof.
  intros Hctx.
  induction jobResults as [|e jobResults IH]; intros pixelNum fullRender sends;
    cbn [pixelLoop foldl]; [by eexists|].
  case_decide; [|apply IH]. rewrite Hctx. apply IH.
Qed.

Lemma Render_unfold rnd sched r ctx state partialRender fullRender :
  Render camera rnd sched r ctx state partialRender fullRender =
    let r' := updatePixelsRand rnd r (image.W fullRender * image.H fullRender) in
    let loop :=
      pixelLoop ctx partialRender
        (sched (make_job camera state (image.W fullRender, image.H fullRender)
                <$> pixelsRand r'))
        0 (init_raster fullRender) 0 in
    {| renderer := r';
       raster := loop.1.1;
       sent := loop.1.2;
       returned := _ ← close partialRender; Ok loop.2 |}.
Proof. unfold Render. cbn [fst snd image.W image.H init_raster]. by destruct (pixelLoop _ _ _ _ _ _) as [[??]?]. Qed.

(** C10.  With a nil partial-update channel no snapshot is sent during
    the pass, and the pass ends in the panic of closing a nil channel,
    whatever the cancellation, the scheduling and the other inputs are:
    it never returns normally. *)
Theorem Render_nil_sink rnd sched r ctx state fullRender :
  sent (Render camera rnd sched r ctx state ChanNil fullRender) = 0%nat
  ∧ returned (Render camera rnd sched r ctx state ChanNil fullRender)
    = Panic "close of nil channel"
  ∧ ¬ is_Ok (returned (Render camera rnd sched r ctx state ChanNil fullRender)).
Proof.
  rewrite Render_unfold. cbn [sent returned close mbind result_bind].
  split_and!.
  - apply pixelLoop_nil_sends.
  - done.
  - by intros [x ?].
Qed.
End Collector.

(** ** The renderer: writing pixels *)

Lemma write_bytes_length (i : nat) (c : color.RGBA) (pix : list Z) :
  length (write_bytes i c pix) = length pix.
Proof. unfold write_bytes. by rewrite !length_insert. Qed.

Lemma write_bytes_lookup (i : nat) (c : color.RGBA) (pix : list Z) (j : nat) :
  (i + 3 < length pix)%nat →
  write_bytes i c pix !! j =
    if decide (i ≤ j < i + 4)%nat then color.bytes c !! (j - i)%nat
    else pix !! j.
Proof.
  intros Hi. unfold write_bytes, color.bytes.
  destruct (decide (j = i + 3)%nat) as [->|H3].
  { rewrite list_lookup_insert_eq by (rewrite !length_insert; lia).
    rewrite decide_True by lia. by replace (i + 3 - i)%nat with 3%nat by lia. }
  rewrite list_lookup_insert_ne by lia.
  destruct (decide (j = i + 2)%nat) as [->|H2].
  { rewrite list_lookup_insert_eq by (rewrite !length_insert; lia).
    rewrite decide_True by lia. by replace (i + 2 - i)%nat with 2%nat by lia. }
  rewrite list_lookup_insert_ne by lia.
  destruct (decide (j = i + 1)%nat) as [->|H1].
  { rewrite list_lookup_insert_eq by (rewrite !length_insert; lia).
    rewrite decide_True by lia. by replace (i + 1 - i)%nat with 1%nat by lia. }
  rewrite list_lookup_insert_ne by lia.
  destruct (decide (j = i)) as [->|H0].
  { rewrite list_lookup_insert_eq by lia.
    rewrite decide_True by lia. by rewrite Nat.sub_diag. }
  rewrite list_lookup_insert_ne by lia.
  by rewrite decide_False by lia.
Qed.

Lemma pixel_index_inj (w q q' : nat) :
  (q `mod` w, q `div` w)%nat = (q' `mod` w, q' `div` w)%nat → q = q'.
Proof.
  intros [= Hm Hd].
  rewrite (Nat.div_mod_eq q w), (Nat.div_mod_eq q' w). by rewrite Hm, Hd.
Qed.

Lemma SetRGBA_index (p : image.RGBA) (q : nat) (c : color.RGBA) :
  (q < image.W p * image.H p)%nat →
  image.SetRGBA p (q `mod` image.W p) (q `div` image.W p) c
  = image.mk (write_bytes (4 * q) c (image.Pix p)) (image.W p) (image.H p).
Proof.
  intros Hq. unfold image.SetRGBA.
  assert (Hw : (0 < image.W p)%nat) by (destruct (image.W p); lia).
  rewrite decide_True.
  - unfold image.PixOffset, write_bytes.
    pose proof (Nat.div_mod_eq q (image.W p)) as Hqm.
    replace (q `div` image.W p * (4 * image.W p) + q `mod` image.W p * 4)%nat
      with (4 * q)%nat by lia.
    done.
  - split; [apply Nat.mod_upper_bound; lia|].
    by apply Nat.Div0.div_lt_upper_bound.
Qed.

Lemma bind_bytes_length (f : nat → color.RGBA) (n : nat) :
  length (q ← seq 0 n; color.bytes (f q)) = (4 * n)%nat.
Proof.
  induction n as [|n IH]; [done|].
  rewrite seq_S, bind_app, length_app, IH. simpl. lia.
Qed.

Lemma bind_bytes_lookup (f : nat → color.RGBA) (n q k : nat) :
  (q < n)%nat → (k < 4)%nat →
  (q ← seq 0 n; color.bytes (f q)) !! (4 * q + k)%nat = color.bytes (f q) !! k.
Proof.
  induction n as [|n IH]; intros Hq Hk; [lia|].
  rewrite seq_S, bind_app.
  destruct (decide (q = n)) as [->|Hne].
  - rewrite lookup_app_r by (rewrite bind_bytes_length; lia).
    rewrite bind_bytes_length.
    replace (4 * n + k - 4 * n)%nat with k by lia.
    simpl. by rewrite ?app_nil_r.
  - rewrite lookup_app_l by (rewrite bind_bytes_length; lia).
    apply IH; lia.
Qed.

Section Writes.
Context {M44 : Type}.
Implicit Types (e : @pixelRender M44) (jobResults : list (@pixelRender M44)).
Variables (w h : nat) (colour : nat → color.RGBA).

Lemma foldl_write_result jobResults : ∀ fullRender,
  image.wf fullRender → image.W fullRender = w → image.H fullRender = h →
  Forall (λ e, ∃ q, (q < w * h)%nat
                    ∧ pixel e = (q `mod` w, q `div` w)%nat
                    ∧ rendered e = colour q) jobResults →
  image.wf (foldl write_result fullRender jobResults)
  ∧ image.W (foldl write_result fullRender jobResults) = w
  ∧ image.H (foldl write_result fullRender jobResults) = h
  ∧ ∀ q k, (q < w * h)%nat → (k < 4)%nat →
      image.Pix (foldl write_result fullRender jobResults) !! (4 * q + k)%nat =
        if decide (Exists (λ e, pixel e = (q `mod` w, q `div` w)%nat) jobResults)
        then color.bytes (colour q) !! k
        else image.Pix fullRender !! (4 * q + k)%nat.
Proof.
  induction jobResults as [|e jobResults IH]; intros fullRender Hwf HW HH HF.
  - cbn [foldl]. by split_and!.
  - apply Forall_cons in HF as [(qe & Hqe & Hpix & Hcol) HF].
    cbn [foldl].
    assert (Hwrite : write_result fullRender e
              = image.mk (write_bytes (4 * qe) (colour qe) (image.Pix fullRender)) w h).
    { unfold write_result. rewrite Hpix, Hcol. cbn [fst snd].
      rewrite <-HW at 1 2. rewrite SetRGBA_index by (by rewrite HW, HH).
      by rewrite HW, HH. }
    rewrite Hwrite.
    unfold image.wf in Hwf. rewrite HW, HH in Hwf.
    destruct (IH (image.mk (write_bytes (4 * qe) (colour qe) (image.Pix fullRender)) w h))
      as (Hwf' & HW' & HH' & Hpix'); try done.
    { unfold image.wf. cbn [image.Pix image.W image.H].
      by rewrite write_bytes_length. }
    split_and!; try done. intros q k Hq Hk.
    rewrite Hpix' by done. cbn [image.Pix].
    case_decide as Htail.
    + rewrite decide_True; [done|]. by apply Exists_cons_tl.
    + rewrite write_bytes_lookup by lia.
      destruct (decide (q = qe)) as [->|Hne].
      * rewrite decide_True by lia. rewrite decide_True by by apply Exists_cons_hd.
        by replace (4 * qe + k - 4 * qe)%nat with k by lia.
      * rewrite decide_False by lia. rewrite decide_False; [done|].
        intros [Hhd|?]%Exists_cons; [|done].
        rewrite Hpix in Hhd. by apply pixel_index_inj in Hhd.
Qed.
End Writes.

(** ** The renderer: the worker pool *)

Lemma omap_insert_Some {A} (ws : list (option A)) (i : nat) (x : A) :
  ws !! i = Some None → omap id (<[i := Some x]> ws) ≡ₚ x :: omap id ws.
Proof.
  revert i. induction ws as [|o ws IH]; intros i Hi; [done|].
  destruct i as [|i]; simpl in *.
  - by simplify_eq.
  - destruct o as [y|]; simpl.
    + rewrite (IH i Hi). apply perm_swap.
    + by apply IH.
Qed.

Lemma omap_insert_None {A} (ws : list (option A)) (i : nat) (x : A) :
  ws !! i = Some (Some x) → x :: omap id (<[i := None]> ws) ≡ₚ omap id ws.
Proof.
  revert i. induction ws as [|o ws IH]; intros i Hi; [done|].
  destruct i as [|i]; simpl in *.
  - by simplify_eq.
  - destruct o as [y|]; simpl.
    + rewrite <-(IH i Hi). apply perm_swap.
    + by apply IH.
Qed.

Lemma omap_replicate_None {A} (n : nat) :
  omap id (replicate n (@None A)) = [].
Proof. induction n as [|n IH]; [done|]. simpl. done. Qed.

Section Pool.
Context {SDF3 M44 : Type}.
Variable castRay : SDF3 → @pixelRender M44 → Qc * Z.
Implicit Types (r : @renderer3 SDF3) (jobs order : list (@pixelRender M44)).

Lemma pool_step_results r (st st' : pool) :
  pool_step castRay r st st' →
  pool_results castRay r st' ≡ₚ pool_results castRay r st.
Proof.
  intros [i job rest ws out Hi | i res pend ws out Hi];
    unfold pool_results; cbn [delivered workers pending].
  - rewrite omap_insert_Some by done. unfold results_of. rewrite fmap_cons.
    apply Permutation_app_head. simpl.
    by rewrite Permutation_middle.
  - rewrite <-(omap_insert_None ws i res Hi).
    rewrite <-app_assoc. apply Permutation_app_head. done.
Qed.

Lemma arrival_Permutation r (numCPU : nat) jobs order :
  arrival castRay r numCPU jobs order → order ≡ₚ results_of castRay r jobs.
Proof.
  unfold arrival. intros Hrtc.
  assert (Hinv : pool_results castRay r (mkPool [] (replicate numCPU None) order)
                 ≡ₚ pool_results castRay r (mkPool jobs (replicate numCPU None) [])).
  { induction Hrtc as [|st1 st2 st3 Hstep _ IH]; [done|].
    rewrite IH. by apply pool_step_results. }
  unfold pool_results in Hinv. cbn [delivered workers pending] in Hinv.
  rewrite omap_replicate_None in Hinv. simpl in Hinv.
  by rewrite app_nil_r in Hinv.
Qed.

(** Any number of workers from one on can deliver the results in the
    order of the jobs. *)
Lemma arrival_in_order r (numCPU : nat) jobs :
  (1 ≤ numCPU)%nat → arrival castRay r numCPU jobs (results_of castRay r jobs).
Proof.
  intros Hn. unfold arrival.
  assert (Hgen : ∀ out,
    rtc (pool_step castRay r)
      (mkPool jobs (replicate numCPU None) out)
      (mkPool [] (replicate numCPU None) (out ++ results_of castRay r jobs))).
  { induction jobs as [|job jobs IH]; intros out.
    - simpl. by rewrite app_nil_r.
    - eapply rtc_l.
      { apply (worker_takes castRay r 0).
        by apply lookup_replicate_2. }
      eapply rtc_l.
      { apply (worker_sends castRay r 0).
        apply list_lookup_insert_eq. rewrite length_replicate. lia. }
      rewrite list_insert_insert_eq.
      rewrite list_insert_id by by apply lookup_replicate_2.
      specialize (IH (out ++ [set_rendered job (samplePixel castRay r job)])).
      rewrite <-app_assoc in IH. exact IH. }
  apply (Hgen []).
Qed.
End Pool.

(** ** The renderer: the completed raster *)

Section Determinism.
Context {SDF3 RendererState M44 : Type}.
Variable camera : RendererState → nat * nat → V3.t * V3.t * M44 * V2.t.
Variable castRay : SDF3 → @pixelRender M44 → Qc * Z.
Implicit Types (r : @renderer3 SDF3) (jobs : list (@pixelRender M44)).

Lemma samplePixel_shape r r' (job : @pixelRender M44) :
  s r = s r' → samplePixel castRay r job = samplePixel castRay r' job.
Proof. intros Hs. unfold samplePixel. by rewrite Hs. Qed.

Lemma results_of_shape r r' jobs :
  s r = s r' → results_of castRay r jobs = results_of castRay r' jobs.
Proof.
  intros Hs. unfold results_of. apply list_fmap_ext. intros _ job _.
  by rewrite (samplePixel_shape r r' job Hs).
Qed.

Lemma make_job_pixel (state : RendererState) (w h q : nat) :
  pixel (make_job camera state (w, h) q) = (q `mod` w, q `div` w)%nat.
Proof. unfold make_job. by destruct (camera state (w, h)) as [[[??]?]?]. Qed.

Lemma completed_raster r (state : RendererState) (fullRender : image.RGBA)
    (perm : list nat) (order : list (@pixelRender M44)) :
  image.wf fullRender →
  perm ≡ₚ seq 0 (image.W fullRender * image.H fullRender) →
  order ≡ₚ results_of castRay r
             (make_job camera state (image.W fullRender, image.H fullRender)
              <$> perm) →
  foldl write_result fullRender order
  = sampled_raster camera castRay r state (image.W fullRender) (image.H fullRender).
Proof.
  intros Hwf Hperm Horder.
  set (w := image.W fullRender) in *. set (h := image.H fullRender) in *.
  set (colour := λ q, samplePixel castRay r (make_job camera state (w, h) q)).
  assert (Hmem : ∀ e, e ∈ order ↔
            ∃ q, (q < w * h)%nat
                 ∧ e = set_rendered (make_job camera state (w, h) q) (colour q)).
  { intros e. rewrite Horder. unfold results_of.
    rewrite list_elem_of_fmap. split.
    - intros (job & -> & Hjob). apply list_elem_of_fmap in Hjob as (q & -> & Hq).
      rewrite Hperm in Hq. apply elem_of_seq in Hq. exists q. split; [lia|done].
    - intros (q & Hq & ->). eexists. split; [done|].
      apply list_elem_of_fmap. exists q. split; [done|].
      rewrite Hperm. apply elem_of_seq. lia. }
  destruct (foldl_write_result w h colour order fullRender)
    as (Hwf' & HW & HH & Hpix); try done.
  { apply Forall_forall. intros e (q & Hq & ->)%Hmem.
    exists q. split_and!; [done| |done].
    cbn [set_rendered pixel]. apply make_job_pixel. }
  destruct (foldl write_result fullRender order) as [pix w' h'].
  cbn [image.W image.H image.Pix] in *. subst w' h'.
  unfold sampled_raster. f_equal.
  unfold image.wf in Hwf'. cbn [image.W image.H image.Pix] in Hwf'.
  apply list_eq. intros j.
  destruct (decide (j < 4 * (w * h))%nat) as [Hj|Hj].
  - rewrite (Nat.div_mod_eq j 4).
    assert (Hq : (j `div` 4 < w * h)%nat)
      by (apply Nat.Div0.div_lt_upper_bound; lia).
    assert (Hk : (j `mod` 4 < 4)%nat) by (apply Nat.mod_upper_bound; lia).
    rewrite Hpix by done.
    rewrite decide_True.
    + symmetry. by apply (bind_bytes_lookup colour).
    + apply Exists_exists. eexists. split.
      * apply Hmem. exists (j `div` 4)%nat. split; [done|reflexivity].
      * cbn [set_rendered pixel]. apply make_job_pixel.
  - rewrite !lookup_ge_None_2; [done| |lia].
    fold colour. rewrite (bind_bytes_length colour). lia.
Qed.

(** C8.  A renderer with any history of passes renders a raster of
    resolution [w x h] in a pass that is not cancelled.  Whenever the
    results arrive in a permutation of the order of the jobs, and
    whenever they arrive in an order that a pool of [numCPU] workers can
    produce, the completed raster is the one that holds in every pixel
    the colour [samplePixel] gives to the job of that pixel: a function of
    the shape, the render state and the resolution alone. *)
Theorem Render_deterministic (shape : SDF3)
    (history : list ((nat → nat) * (nat * nat)))
    (rnd : nat → nat) (sched : list pixelRender → list pixelRender)
    (ctx : nat → option error) (state : RendererState)
    (partialRender : chan) (fullRender : image.RGBA) (numCPU : nat) :
  let r := after_passes shape history in
  let w := image.W fullRender in
  let h := image.H fullRender in
  let r' := updatePixelsRand rnd r (w * h) in
  let jobs := make_job camera state (w, h) <$> pixelsRand r' in
  image.wf fullRender →
  (∀ n, ctx n = None) →
  sched jobs ≡ₚ results_of castRay r' jobs
  ∨ arrival castRay r' numCPU jobs (sched jobs) →
  raster (Render camera rnd sched r ctx state partialRender fullRender)
  = sampled_raster camera castRay (newDevRenderer3 shape) state w h
  ∧ (partialRender = ChanOpen →
     returned (Render camera rnd sched r ctx state partialRender fullRender)
     = Ok None).
Proof.
  intros r w h r' jobs Hwf Hctx Hsched.
  assert (Horder : sched jobs ≡ₚ results_of castRay (newDevRenderer3 shape) jobs).
  { rewrite (results_of_shape (newDevRenderer3 shape) r').
    - destruct Hsched as [?|Harr]; [done|]. by eapply arrival_Permutation.
    - subst r' r. by rewrite updatePixelsRand_s, after_passes_s. }
  rewrite Render_unfold. cbn [raster returned].
  fold w h r' jobs.
  destruct (pixelLoop_uncancelled ctx partialRender (sched jobs) Hctx 0
              (init_raster fullRender) 0) as [sends' ->].
  cbn [fst snd]. split; [|by intros ->].
  pose proof (completed_raster (newDevRenderer3 shape) state
                (init_raster fullRender) (pixelsRand r') (sched jobs)) as Hc.
  cbn [init_raster image.W image.H] in Hc. apply Hc.
  - by apply init_raster_wf.
  - apply updatePixelsRand_Permutation, after_passes_Permutation.
  - done.
Qed.
End Determinism.

Example Render_small_scene :
  let fullRender := image.mk (replicate 24 7%Z) 3 2 in
  let sched := λ jobs,
    reverse (results_of example_castRay (newDevRenderer3 tt) jobs) in
  let p := Render example_camera (λ i, (i + 3)%nat) sched (newDevRenderer3 tt)
             (λ _, None) tt ChanOpen fullRender in
  pixelsRand (renderer p) = [1; 0; 3; 4; 5; 2]%nat
  ∧ image.Pix (raster p)
    = [0; 0; 255; 255; 150; 50; 50; 255; 0; 0; 255; 255;
       150; 50; 50; 255; 0; 0; 255; 255; 150; 50; 50; 255]%Z
  ∧ returned p = Ok None.
Proof. by split_and!. Qed.

Lemma Render_deterministic_witness :
  let fullRender := image.mk (replicate 24 7%Z) 3 2 in
  let sched := results_of example_castRay (newDevRenderer3 tt) in
  let rnd := λ i, (i + 3)%nat in
  let ctx := λ _ : nat, @None error in
  raster (Render example_camera rnd sched (after_passes tt []) ctx tt
            ChanOpen fullRender)
  = sampled_raster example_camera example_castRay (newDevRenderer3 tt) tt 3 2
  ∧ (ChanOpen = ChanOpen →
     returned (Render example_camera rnd sched (after_passes tt []) ctx tt
                 ChanOpen fullRender)
     = Ok None).
Proof.
  intros fullRender sched rnd ctx.
  apply (Render_deterministic example_camera example_castRay tt [] rnd sched
           ctx tt ChanOpen fullRender 2).
  - reflexivity.
  - reflexivity.
  - right. unfold sched.
    erewrite results_of_shape; [apply arrival_in_order; lia|reflexivity].
Defined.

(** * Further properties of the spline file *)

(** ** Cubic polynomials *)

(** X1.  [Set(y0, y1, D0, D1)] is Hermite interpolation: the polynomial
    takes the values [y0], [y1] and the first derivatives [D0], [D1] at
    [t = 0] and [t = 1]. *)
Theorem Set_Hermite (y0 y1 D0 D1 : Qc) :
  Poly.f0 (Poly.Set_ y0 y1 D0 D1) 0 = y0
  ∧ Poly.f0 (Poly.Set_ y0 y1 D0 D1) 1 = y1
  ∧ Poly.f1 (Poly.Set_ y0 y1 D0 D1) 0 = D0
  ∧ Poly.f1 (Poly.Set_ y0 y1 D0 D1) 1 = D1.
Proof.
  unfold Poly.f0, Poly.f1, Poly.Set_. cbn [a b c d].
  split_and!; ring.
Qed.


(** ** The solver returns the only solution *)

Lemma rows_back_solved (m : list V3.t) (d y : list Qc) :
  length y = length m →
  V3.Z (m !!! (length m - 1)%nat) = 0 →
  V3.Y (m !!! 0%nat) ≠ 0 →
  (∀ i, (1 ≤ i < length m)%nat → denom m i ≠ 0) →
  (∀ i, (i < length m)%nat → row_holds m d y i) →
  ∀ j, (j < length m)%nat → back_solved m d y j.
Proof.
  intros Hy HZn HY0 Hden Hrows j.
  induction j as [|j IH]; intros Hj.
  - pose proof (Hrows 0%nat Hj) as Hr. unfold row_holds in Hr.
    rewrite default_lookup_total in Hr.
    unfold back_solved. cbn [cprime dprime].
    case_decide as Hlt.
    + rewrite <-Hr. field. done.
    + replace (length m - 1)%nat with 0%nat in HZn by lia.
      rewrite HZn in Hr. rewrite <-Hr. field. done.
  - pose proof (Hrows (S j) Hj) as Hr. unfold row_holds in Hr.
    rewrite default_lookup_total in Hr.
    pose proof (IH ltac:(lia)) as Ej. unfold back_solved in Ej.
    rewrite decide_True in Ej by lia.
    pose proof (Hden (S j) ltac:(lia)) as Hnz. unfold denom in Hnz.
    replace (S j - 1)%nat with j in Hnz by lia.
    unfold back_solved. cbn [cprime dprime].
    set (e := V3.Y (m !!! S j) - V3.X (m !!! S j) * cprime m j) in *.
    assert (EY : V3.Y (m !!! S j) = e + V3.X (m !!! S j) * cprime m j)
      by (subst e; ring).
    rewrite EY in Hr. clearbody e.
    rewrite Ej in Hr.
    case_decide as Hlt.
    + rewrite <-Hr. field. done.
    + replace (length m - 1)%nat with (S j) in HZn by lia.
      rewrite HZn in Hr. rewrite <-Hr. field. done.
Qed.

Lemma back_solved_unique (m : list V3.t) (d x y : list Qc) :
  length x = length m → length y = length m →
  (∀ j, (j < length m)%nat → back_solved m d x j) →
  (∀ j, (j < length m)%nat → back_solved m d y j) →
  x = y.
Proof.
  intros Hx Hy Hsx Hsy.
  assert (Heq : ∀ k j, (length m - k ≤ j < length m)%nat → x !!! j = y !!! j).
  { induction k as [|k IH]; intros j Hj; [lia|].
    rewrite (Hsx j), (Hsy j) by lia.
    case_decide as Hlt; [|done].
    by rewrite (IH (S j)) by lia. }
  apply list_eq. intros j.
  destruct (decide (j < length m)%nat) as [Hj|Hj].
  - rewrite !list_lookup_lookup_total_lt by lia.
    f_equal. apply (Heq (length m)). lia.
  - by rewrite !lookup_ge_None_2 by lia.
Qed.

Lemma TriDiagonal_unique_solution (m : list V3.t) (d y : list Qc) :
  (1 ≤ length m)%nat → length d = length m →
  V3.X (m !!! 0%nat) = 0 →
  V3.Z (m !!! (length m - 1)%nat) = 0 →
  V3.Y (m !!! 0%nat) ≠ 0 →
  (∀ i, (1 ≤ i < length m)%nat → denom m i ≠ 0) →
  length y = length m →
  (∀ i, (i < length m)%nat → row_holds m d y i) →
  TriDiagonal m d = Ok y.
Proof.
  intros Hn Hd HX HZ HY Hden Hy Hrows.
  destruct (TriDiagonal_ok m d) as (x & -> & Hx & Hsol); try done.
  f_equal. apply (back_solved_unique m d); try done.
  by apply rows_back_solved.
Qed.

(** X3.  On a system that passes the checks of [TriDiagonal] and whose
    forward sweep meets no zero denominator, every vector of the right
    length that satisfies all the row equations is the vector that
    [TriDiagonal] returns: the solution is unique. *)
Theorem TriDiagonal_unique (m : list V3.t) (d y : list Qc) :
  (1 ≤ length m)%nat → length d = length m →
  V3.X (m !!! 0%nat) = 0 →
  V3.Z (m !!! (length m - 1)%nat) = 0 →
  V3.Y (m !!! 0%nat) ≠ 0 →
  (∀ i, (1 ≤ i < length m)%nat → denom m i ≠ 0) →
  length y = length m →
  (∀ i, (i < length m)%nat → row_holds m d y i) →
  TriDiagonal m d = Ok y.
Proof. apply TriDiagonal_unique_solution. Qed.

Lemma TriDiagonal_unique_witness :
  TriDiagonal [V3.mk 0 2 1; V3.mk 1 4 1; V3.mk 1 2 0]
              [Qc_of_Z 3; Qc_of_Z 7; Qc_of_Z (-3)]
  = Ok [Q2Qc (1 # 3); Q2Qc (7 # 3); Q2Qc (-8 # 3)].
Proof.
  apply TriDiagonal_unique.
  - simpl. lia.
  - reflexivity.
  - reflexivity.
  - reflexivity.
  - by vm_compute.
  - intros i Hi. simpl in Hi.
    assert (i = 1 ∨ i = 2)%nat as [-> | ->] by lia; by vm_compute.
  - reflexivity.
  - intros i Hi. simpl in Hi.
    assert (i = 0 ∨ i = 1 ∨ i = 2)%nat as [-> | [-> | ->]] by lia;
      apply Qc_is_canon; reflexivity.
Defined.

(** ** Which panic for which input *)

(** X4.  The checks of [TriDiagonal] are made in a fixed order and each
    panic message names the first check that fails: the size check comes
    first (also for a system without rows), then the index [m[0]], then
    the two corner entries, then [m[0].Y], and a zero denominator is
    reported only for a system that passed all of them. *)
Theorem TriDiagonal_panic_table (m : list V3.t) (d : list Qc) (msg : string) :
  TriDiagonal m d = Panic msg ↔
    (msg = "bad sizes rows(m) != rows(d)"%string ∧ length d ≠ length m)
    ∨ (msg = "index out of range"%string ∧ length d = length m ∧ length m = 0%nat)
    ∨ (msg = "bad values for tridiagonal matrix"%string
       ∧ length d = length m ∧ (1 ≤ length m)%nat
       ∧ (V3.X (m !!! 0%nat) ≠ 0 ∨ V3.Z (m !!! (length m - 1)%nat) ≠ 0))
    ∨ (msg = "m[0].Y == 0"%string
       ∧ length d = length m ∧ (1 ≤ length m)%nat
       ∧ V3.X (m !!! 0%nat) = 0 ∧ V3.Z (m !!! (length m - 1)%nat) = 0
       ∧ V3.Y (m !!! 0%nat) = 0)
    ∨ (msg = "denom == 0"%string
       ∧ length d = length m ∧ (1 ≤ length m)%nat
       ∧ V3.X (m !!! 0%nat) = 0 ∧ V3.Z (m !!! (length m - 1)%nat) = 0
       ∧ V3.Y (m !!! 0%nat) ≠ 0
       ∧ ∃ i, (1 ≤ i < length m)%nat ∧ denom m i = 0).
Proof.
  destruct (decide (length m = 0%nat)) as [Hz|Hnz].
  { destruct m; [|done]. unfold TriDiagonal. cbn [length].
    case_decide as Hsz; simpl.
    - split; [intros [= <-]; by left|].
      intros [[-> _]|[(_ & ? & _)|[(_ & _ & ? & _)|[(_ & _ & ? & _)|(_ & _ & ? & _)]]]];
        done || lia.
    - assert (length d = 0%nat) by (destruct (decide (length d = 0%nat)); done).
      split; [intros [= <-]; right; by left|].
      intros [[_ ?]|[(-> & _)|[(_ & _ & ? & _)|[(_ & _ & ? & _)|(_ & _ & ? & _)]]]];
        done || lia. }
  assert (Hn : (1 ≤ length m)%nat) by lia.
  rewrite TriDiagonal_unfold by done.
  case_decide as Hsz.
  { split; [intros [= <-]; by left|].
    intros [[-> _]|[(_ & ? & _)|[(_ & ? & _)|[(_ & ? & _)|(_ & ? & _)]]]]; done. }
  assert (Hd : length d = length m) by by destruct (decide (length d = length m)).
  case_decide as Hends.
  { split; [intros [= <-]; right; right; by left|].
    intros [[_ ?]|[(_ & _ & ?)|[(-> & _)|[(_ & _ & _ & ? & ? & _)|(_ & _ & _ & ? & ? & _)]]]];
      try done; try lia; exfalso; destruct Hends; done. }
  assert (HX : V3.X (m !!! 0%nat) = 0).
  { destruct (decide (V3.X (m !!! 0%nat) = 0)); [done|]. exfalso. apply Hends. by left. }
  assert (HZ : V3.Z (m !!! (length m - 1)%nat) = 0).
  { destruct (decide (V3.Z (m !!! (length m - 1)%nat) = 0)); [done|].
    exfalso. apply Hends. by right. }
  case_decide as HY.
  { split; [intros [= <-]; right; right; right; by left|].
    intros [[_ ?]|[(_ & _ & ?)|[(_ & _ & _ & ?)|[(-> & _)|(_ & _ & _ & _ & _ & ? & _)]]]];
      try done; try lia. }
  destruct (zero_denominator_dec m) as [Hzero|Hnone].
  - rewrite (elimination_panic m d (length m - 1) 1 _ _ ltac:(lia) ltac:(lia)
               (swept_init m d Hn)).
    + split; [intros [= <-]; right; right; right; right; done|].
      intros [[_ ?]|[(_ & _ & ?)|[(_ & _ & _ & ?)|[(_ & _ & _ & _ & _ & ?)|(-> & _)]]]];
        try done; try lia.
    + destruct Hzero as (i & Hi & Hz). exists i. split; [lia|done].
  - destruct (elimination_ok m d (length m - 1) 1 _ _ ltac:(lia) ltac:(lia)
                (swept_init m d Hn)) as (cp & x & -> & _).
    { intros i Hi Hz. apply Hnone. exists i. split; [lia|done]. }
    cbn [mbind result_bind]. split; [done|].
    intros [[_ ?]|[(_ & _ & ?)|[(_ & _ & _ & ?)|[(_ & _ & _ & _ & _ & ?)|(_ & _ & _ & _ & _ & _ & ?)]]]];
      try done; try lia.
Qed.

(** ** When the fit fails, and how smooth the curve is *)



Lemma Poly_f2_join (y0 y1 y2 D0 D1 D2 : Qc) :
  D0 + 4 * D1 + D2 = 3 * (y2 - y0) →
  Poly.f2 (Poly.Set_ y0 y1 D0 D1) 1 = Poly.f2 (Poly.Set_ y1 y2 D1 D2) 0.
Proof.
  intros E. unfold Poly.f2, Poly.Set_. cbn [a b c d].
  assert (D0 = 3 * (y2 - y0) - 4 * D1 - D2) as -> by (rewrite <-E; ring).
  ring.
Qed.

Section Smoothness.
Variable quadratic : Qc → Qc → Qc → list Qc.

(** X5.  [CubicSpline2D] panics exactly when it gets fewer than two
    knots, with the message of its own check; for two knots or more it
    always returns a curve, whatever the knots are (repeated knots
    included): the solver never fails on the system it is given. *)
Theorem CubicSpline2D_fails_iff (knot : list V2.t) :
  (CubicSpline2D quadratic knot = Panic "cubic splines at least 2 knots"
   ↔ (length knot < 2)%nat)
  ∧ (is_Ok (CubicSpline2D quadratic knot) ↔ (2 ≤ length knot)%nat)
  ∧ (is_Panic (CubicSpline2D quadratic knot) ↔ (length knot < 2)%nat).
Proof.
  destruct (decide (length knot < 2)%nat) as [Hlt|Hge].
  - assert (E : CubicSpline2D quadratic knot
                = Panic "cubic splines at least 2 knots").
    { unfold CubicSpline2D. by rewrite decide_True. }
    rewrite E. split_and!; split; try done; try lia.
    + by intros [x ?].
    + intros _. by eexists.
  - destruct (CubicSpline2D_fitted quadratic knot ltac:(lia))
      as (xx & xy & box & _ & _ & ->).
    split_and!; split; try done; try lia.
    + intros _. by eexists.
    + by intros [msg ?].
Qed.


(** X7.  The second derivative of the fitted curve is continuous across
    every interior knot as well. *)
Theorem CubicSpline2D_C2 (knot : list V2.t) :
  (2 ≤ length knot)%nat →
  ∃ s, CubicSpline2D quadratic knot = Ok s
    ∧ ∀ i, (i + 1 < length knot - 1)%nat →
        Spline.f2 (spline s !!! i) 1 = Spline.f2 (spline s !!! (i + 1)%nat) 0.
Proof.
  intros Hn.
  destruct (CubicSpline2D_fitted quadratic knot Hn)
    as (xx & xy & box & Hx & Hy & E).
  eexists. split; [exact E|]. cbn [spline]. intros i Hi.
  rewrite !lookup_total_segments by lia.
  destruct Hx as (_ & _ & Hxi & _). destruct Hy as (_ & _ & Hyi & _).
  specialize (Hxi (i + 1)%nat ltac:(lia)).
  specialize (Hyi (i + 1)%nat ltac:(lia)).
  replace (i + 1 - 1)%nat with i in Hxi, Hyi by lia.
  unfold Spline.f2, segment_of. cbn [px py].
  f_equal; by apply Poly_f2_join.
Qed.
End Smoothness.


Lemma CubicSpline2D_C2_witness :
  let knot := [V2.mk 0 0; V2.mk 1 3; V2.mk 2 2; V2.mk 4 0] in
  ∃ s, CubicSpline2D (λ _ _ _, []) knot = Ok s
    ∧ ∀ i, (i + 1 < length knot - 1)%nat →
        Spline.f2 (spline s !!! i) 1 = Spline.f2 (spline s !!! (i + 1)%nat) 0.
Proof.
  intros knot. apply (CubicSpline2D_C2 (λ _ _ _, []) knot). simpl. lia.
Defined.

(** ** The curve is determined by the equations of the natural spline *)

Lemma natural_matrix_length (n : nat) : length (natural_matrix n) = n.
Proof. unfold natural_matrix. by rewrite !length_insert, length_replicate. Qed.

Lemma natural_matrix_rows (n : nat) :
  (2 ≤ n)%nat → natural_rows (natural_matrix n).
Proof.
  intros Hn. unfold natural_rows. rewrite natural_matrix_length.
  unfold natural_matrix. split_and!.
  - done.
  - rewrite list_lookup_total_insert_ne by lia.
    by rewrite list_lookup_total_insert_eq by (rewrite length_replicate; lia).
  - intros i Hi. rewrite !list_lookup_total_insert_ne by lia.
    apply list_lookup_total_correct, lookup_replicate_2. lia.
  - by rewrite list_lookup_total_insert_eq
      by (rewrite length_insert, length_replicate; lia).
Qed.

Lemma natural_rhs_length (coord : V2.t → Qc) (knot : list V2.t) :
  length (natural_rhs coord knot) = length knot.
Proof.
  unfold natural_rhs. by rewrite !length_insert, length_fmap, length_seq.
Qed.

Lemma natural_rhs_lookup (coord : V2.t → Qc) (knot : list V2.t) :
  (2 ≤ length knot)%nat →
  natural_rhs coord knot !!! 0%nat
  = 3 * (coord (knot !!! 1%nat) - coord (knot !!! 0%nat))
  ∧ (∀ i, (1 ≤ i < length knot - 1)%nat →
       natural_rhs coord knot !!! i
       = 3 * (coord (knot !!! (i + 1)%nat) - coord (knot !!! (i - 1)%nat)))
  ∧ natural_rhs coord knot !!! (length knot - 1)%nat
    = 3 * (coord (knot !!! (length knot - 1)%nat)
           - coord (knot !!! (length knot - 2)%nat)).
Proof.
  intros Hn. unfold natural_rhs. split_and!.
  - rewrite list_lookup_total_insert_ne by lia.
    by rewrite list_lookup_total_insert_eq
      by (rewrite length_fmap, length_seq; lia).
  - intros i Hi. rewrite !list_lookup_total_insert_ne by lia.
    apply list_lookup_total_correct.
    rewrite list_lookup_fmap. by rewrite lookup_seq_lt by lia.
  - by rewrite list_lookup_total_insert_eq
      by (rewrite length_insert, length_fmap, length_seq; lia).
Qed.

Lemma natural_system_row_holds (coord : V2.t → Qc) (knot : list V2.t)
    (D : list Qc) :
  (2 ≤ length knot)%nat → natural_system coord knot D →
  ∀ i, (i < length knot)%nat →
    row_holds (natural_matrix (length knot)) (natural_rhs coord knot) D i.
Proof.
  intros Hn (HD & H0 & Hin & Hl) i Hi.
  destruct (natural_matrix_rows (length knot) Hn) as (_ & M0 & Min & Ml).
  rewrite natural_matrix_length in Min, Ml.
  destruct (natural_rhs_lookup coord knot Hn) as (R0 & Rin & Rl).
  unfold row_holds.
  destruct (decide (i = 0%nat)) as [->|Hi0].
  { rewrite M0, R0. cbn [V3.X V3.Y V3.Z].
    rewrite default_lookup_total. rewrite <-H0. ring. }
  destruct (decide (i = length knot - 1)%nat) as [->|Hil].
  { rewrite Ml, Rl. cbn [V3.X V3.Y V3.Z]. rewrite <-Hl.
    destruct (length knot - 1)%nat as [|j] eqn:Ej; [lia|].
    replace (length knot - 2)%nat with j by lia. ring. }
  rewrite Min, Rin by lia. cbn [V3.X V3.Y V3.Z].
  rewrite default_lookup_total. rewrite <-(Hin i) by lia.
  destruct i as [|j]; [lia|].
  replace (S j - 1)%nat with j by lia.
  replace (S j + 1)%nat with (S (S j)) by lia. ring.
Qed.

Lemma natural_system_solution (coord : V2.t → Qc) (knot : list V2.t)
    (D : list Qc) :
  (2 ≤ length knot)%nat → natural_system coord knot D →
  TriDiagonal (natural_matrix (length knot)) (natural_rhs coord knot) = Ok D.
Proof.
  intros Hn HD.
  pose proof (natural_matrix_rows (length knot) Hn) as Hnat.
  pose proof Hnat as (_ & M0 & _ & Ml).
  apply TriDiagonal_unique_solution;
    rewrite ?natural_matrix_length in *.
  - lia.
  - apply natural_rhs_length.
  - by rewrite M0.
  - by rewrite Ml.
  - rewrite M0. by vm_compute.
  - intros i Hi. apply natural_denom; [done|].
    by rewrite natural_matrix_length.
  - by destruct HD as [? _].
  - by apply natural_system_row_holds.
Qed.

Lemma natural_system_unique (coord : V2.t → Qc) (knot : list V2.t)
    (D D' : list Qc) :
  (2 ≤ length knot)%nat →
  natural_system coord knot D → natural_system coord knot D' → D = D'.
Proof.
  intros Hn HD HD'.
  pose proof (natural_system_solution coord knot D Hn HD) as E.
  rewrite (natural_system_solution coord knot D' Hn HD') in E.
  by injection E.
Qed.

Lemma CubicSpline2D_solutions (quadratic : Qc → Qc → Qc → list Qc)
    (knot : list V2.t) (Dx Dy : list Qc) :
  (2 ≤ length knot)%nat →
  natural_system V2.X knot Dx → natural_system V2.Y knot Dy →
  ∃ box, CubicSpline2D quadratic knot
         = Ok {| spline := segment_of knot Dx Dy <$> seq 0 (length knot - 1);
                 bb := box |}.
Proof.
  intros Hn Hx Hy.
  destruct (CubicSpline2D_fitted quadratic knot Hn)
    as (xx & xy & box & Hxx & Hxy & E).
  rewrite (natural_system_unique V2.X knot Dx xx Hn Hx Hxx).
  rewrite (natural_system_unique V2.Y knot Dy xy Hn Hy Hxy).
  by exists box.
Qed.



(** ** Equally spaced knots on a line *)

Lemma float64_S (i : nat) : float64 (Z.of_nat (S i)) = float64 (Z.of_nat i) + 1.
Proof.
  unfold float64. rewrite Nat2Z.inj_succ, <-Z.add_1_r.
  by rewrite Z2Qc_inj_add, Z2Qc_inj_1.
Qed.

Lemma straight_natural_system (coord : V2.t → Qc) (knot : list V2.t)
    (c0 v : Qc) :
  (2 ≤ length knot)%nat →
  (∀ i, (i < length knot)%nat →
     coord (knot !!! i) = c0 + float64 (Z.of_nat i) * v) →
  natural_system coord knot (replicate (length knot) v).
Proof.
  intros Hn Hk.
  assert (HD : ∀ i, (i < length knot)%nat →
                    replicate (length knot) v !!! i = v).
  { intros i Hi. by apply list_lookup_total_correct, lookup_replicate_2. }
  unfold natural_system. rewrite length_replicate. split_and!.
  - done.
  - rewrite !HD, !Hk by lia. rewrite float64_S.
    change (Z.of_nat 0) with 0%Z. rewrite float64_0. ring.
  - intros i Hi. rewrite !HD, !Hk by lia.
    destruct i as [|j]; [lia|].
    replace (S j - 1)%nat with j by lia.
    replace (S j + 1)%nat with (S (S j)) by lia.
    rewrite !float64_S. ring.
  - rewrite !HD, !Hk by lia.
    destruct (length knot - 1)%nat as [|j] eqn:Ej; [lia|].
    replace (length knot - 2)%nat with j by lia.
    rewrite float64_S. ring.
Qed.

(** X9.  Through equally spaced knots on a line, [knot[i] = p + i*v], the
    fitted curve is the line itself: every segment has the coefficients
    [a = knot[i]], [b = v], [c = d = 0] on both axes. *)
Theorem CubicSpline2D_straight (quadratic : Qc → Qc → Qc → list Qc)
    (knot : list V2.t) (p v : V2.t) :
  (2 ≤ length knot)%nat →
  (∀ i, (i < length knot)%nat →
     knot !!! i = V2.mk (V2.X p + float64 (Z.of_nat i) * V2.X v)
                        (V2.Y p + float64 (Z.of_nat i) * V2.Y v)) →
  ∃ s, CubicSpline2D quadratic knot = Ok s
    ∧ ∀ i, (i < length knot - 1)%nat →
        px (spline s !!! i) = mkPoly (V2.X (knot !!! i)) (V2.X v) 0 0
        ∧ py (spline s !!! i) = mkPoly (V2.Y (knot !!! i)) (V2.Y v) 0 0.
Proof.
  intros Hn Hk.
  destruct (CubicSpline2D_solutions quadratic knot
              (replicate (length knot) (V2.X v))
              (replicate (length knot) (V2.Y v)) Hn) as [box E].
  { apply (straight_natural_system V2.X knot (V2.X p)); [done|].
    intros i Hi. by rewrite Hk. }
  { apply (straight_natural_system V2.Y knot (V2.Y p)); [done|].
    intros i Hi. by rewrite Hk. }
  eexists. split; [exact E|]. cbn [spline]. intros i Hi.
  rewrite lookup_total_segments by done.
  unfold segment_of. cbn [px py].
  assert (HD : ∀ (w : Qc) j, (j < length knot)%nat →
                 replicate (length knot) w !!! j = w).
  { intros w j Hj. by apply list_lookup_total_correct, lookup_replicate_2. }
  rewrite !HD by lia.
  rewrite (Hk i), (Hk (i + 1)%nat) by lia. cbn [V2.X V2.Y].
  replace (i + 1)%nat with (S i) by lia. rewrite float64_S.
  unfold Poly.Set_. split; f_equal; ring.
Qed.

Lemma CubicSpline2D_straight_witness :
  let knot := [V2.mk 0 0; V2.mk 1 2; V2.mk 2 4] in
  ∃ s, CubicSpline2D (λ _ _ _, []) knot = Ok s
    ∧ ∀ i, (i < length knot - 1)%nat →
        px (spline s !!! i) = mkPoly (V2.X (knot !!! i)) 1 0 0
        ∧ py (spline s !!! i) = mkPoly (V2.Y (knot !!! i)) 2 0 0.
Proof.
  intros knot.
  apply (CubicSpline2D_straight (λ _ _ _, []) knot (V2.mk 0 0) (V2.mk 1 2)).
  - simpl. lia.
  - intros i Hi. simpl in Hi.
    assert (i = 0 ∨ i = 1 ∨ i = 2)%nat as [-> | [-> | ->]] by lia;
      cbn [V2.X V2.Y]; simpl lookup_total;
      f_equal; apply Qc_is_canon; reflexivity.
Defined.

(** ** The global parameter, there and back *)






(** ** Polygons *)

Lemma F0_ok (s : CubicSplineSDF2) (t : Qc) :
  (1 ≤ length (spline s))%nat → ∃ v, F0 s t = Ok v.
Proof.
  intros Hn. unfold F0.
  destruct (Find_in_bounds s t Hn) as (i & t' & -> & _).
  cbn [mbind result_bind]. by eexists.
Qed.

Lemma Polygonize_from_spec (s : CubicSplineSDF2) (dt : Qc) (k : nat) :
  (1 ≤ length (spline s))%nat → ∀ t p,
  ∃ pts, Polygonize_from s dt k t p = Ok (p ++ pts)
    ∧ length pts = k
    ∧ ∀ j, (j < k)%nat →
        F0 s (t + float64 (Z.of_nat j) * dt) = Ok (pts !!! j).
Proof.
  intros Hn. induction k as [|k IH]; intros t p; cbn [Polygonize_from].
  - exists []. rewrite app_nil_r. split_and!; try done. intros j Hj. lia.
  - destruct (F0_ok s t Hn) as [x Hx]. rewrite Hx. cbn [mbind result_bind].
    destruct (IH (t + dt) (AddV2 p x)) as (pts & -> & Hlen & Hpts).
    exists (x :: pts). unfold AddV2. rewrite <-app_assoc.
    split_and!; [done|by rewrite length_cons, Hlen|].
    intros [|j] Hj.
    + change (Z.of_nat 0) with 0%Z. rewrite float64_0.
      replace (t + 0 * dt) with t by ring. done.
    + rewrite float64_S.
      replace (t + (float64 (Z.of_nat j) + 1) * dt)
        with (t + dt + float64 (Z.of_nat j) * dt) by ring.
      apply Hpts. lia.
Qed.

Lemma Polygonize_from_panic (s : CubicSplineSDF2) (dt : Qc) (k : nat) t p :
  length (spline s) = 0%nat →
  Polygonize_from s dt (S k) t p = Panic "index out of range".
Proof.
  intros Hz. cbn [Polygonize_from]. unfold F0.
  destruct s as [sp box]. cbn [spline] in Hz. destruct sp; [|done].
  by rewrite Find_no_segments.
Qed.

(** X11.  [Polygonize(n)] on a curve with at least one segment returns
    exactly [n] points; the first is the curve at the global parameter 0
    and, for [n >= 2], point [j] is the curve at [j * dt] with
    [dt = segments / (n-1)] (exact arithmetic).  For [n <= 0] it returns
    the empty polygon on every curve; on a curve without segments it
    panics for every [n >= 1]. *)
Theorem Polygonize_points (s : CubicSplineSDF2) (n : Z) :
  ((1 ≤ length (spline s))%nat → (0 ≤ n)%Z →
   ∃ pts, Polygonize s n = Ok pts
     ∧ length pts = Z.to_nat n
     ∧ ((1 ≤ n)%Z → F0 s 0 = Ok (pts !!! 0%nat))
     ∧ ((2 ≤ n)%Z → ∀ j, (j < Z.to_nat n)%nat →
         F0 s (float64 (Z.of_nat j)
               * (float64 (Z.of_nat (length (spline s))) / float64 (n - 1)))
         = Ok (pts !!! j)))
  ∧ ((n ≤ 0)%Z → Polygonize s n = Ok [])
  ∧ (length (spline s) = 0%nat → (1 ≤ n)%Z →
     Polygonize s n = Panic "index out of range").
Proof.
  unfold Polygonize. cbv zeta. split_and!.
  - intros Hs Hn.
    destruct (Polygonize_from_spec s
                (float64 (Z.of_nat (length (spline s))) / float64 (n - 1))
                (Z.to_nat n) Hs 0 NewPolygon) as (pts & -> & Hlen & Hpts).
    exists pts. split_and!; try done.
    + intros H1. rewrite <-(Hpts 0%nat) by lia.
      change (Z.of_nat 0) with 0%Z. rewrite float64_0. f_equal; try ring.
    + intros _ j Hj. rewrite <-(Hpts j Hj). f_equal. ring.
  - intros Hn. by replace (Z.to_nat n) with 0%nat by lia.
  - intros Hz Hn. replace (Z.to_nat n) with (S (Z.to_nat n - 1)) by lia.
    by apply Polygonize_from_panic.
Qed.

Section PolygonOfFit.
Variable quadratic : Qc → Qc → Qc → list Qc.

Lemma F0_at_knot (knot : list V2.t) (xx xy : list Qc) (box : Box2) (i : nat) :
  (2 ≤ length knot)%nat → (i ≤ length knot - 1)%nat →
  F0 {| spline := segment_of knot xx xy <$> seq 0 (length knot - 1);
        bb := box |} (float64 (Z.of_nat i))
  = Ok (knot !!! i).
Proof.
  intros Hn Hi. unfold F0.
  destruct (decide (i = length knot - 1)%nat) as [->|Hne].
  - rewrite Find_last; cbn [spline]; rewrite ?length_segments; [|lia|done].
    cbn [mbind result_bind].
    rewrite lookup_total_segments by lia.
    destruct (segment_of_f0 knot xx xy (length knot - 1 - 1)) as [_ ->].
    do 2 f_equal. lia.
  - rewrite Find_integer by (cbn [spline]; rewrite length_segments; lia).
    cbn [mbind result_bind spline].
    rewrite lookup_total_segments by lia.
    by destruct (segment_of_f0 knot xx xy i) as [-> _].
Qed.

(** X12.  On the curve fitted through [N >= 2] knots, [Polygonize(N)]
    returns the knots themselves, and for every [n >= 2] the polygon of
    [Polygonize(n)] has [n] points, starts at the first knot and ends at
    the last one (exact arithmetic). *)
Theorem Polygonize_fitted (knot : list V2.t) :
  (2 ≤ length knot)%nat →
  ∃ s, CubicSpline2D quadratic knot = Ok s
    ∧ Polygonize s (Z.of_nat (length knot)) = Ok knot
    ∧ ∀ n, (2 ≤ n)%Z →
        ∃ pts, Polygonize s n = Ok pts
          ∧ length pts = Z.to_nat n
          ∧ pts !! 0%nat = Some (knot !!! 0%nat)
          ∧ pts !! (Z.to_nat n - 1)%nat = Some (knot !!! (length knot - 1)%nat).
Proof.
  intros Hn.
  destruct (CubicSpline2D_fitted quadratic knot Hn) as (xx & xy & box & _ & _ & E).
  eexists. split; [exact E|].
  set (s := {| spline := _; bb := box |}).
  assert (Hlen : length (spline s) = (length knot - 1)%nat)
    by apply length_segments.
  assert (Hnz : ∀ k : nat, (1 ≤ k)%nat → float64 (Z.of_nat k) ≠ 0).
  { intros k Hk. rewrite <-float64_0. unfold float64.
    intros Hz%Z2Qc_inj. lia. }
  split.
  - destruct (Polygonize_from_spec s
                (float64 (Z.of_nat (length (spline s)))
                 / float64 (Z.of_nat (length knot) - 1))
                (Z.to_nat (Z.of_nat (length knot))) ltac:(lia) 0 NewPolygon)
      as (pts & Epts & Hl & Hpts).
    unfold Polygonize. cbv zeta. rewrite Epts. cbn [NewPolygon app]. f_equal.
    rewrite Nat2Z.id in Hl, Hpts.
    apply list_eq. intros j.
    destruct (decide (j < length knot)%nat) as [Hj|Hj].
    + rewrite !list_lookup_lookup_total_lt by lia. f_equal.
      specialize (Hpts j Hj).
      rewrite Hlen in Hpts.
      replace (Z.of_nat (length knot) - 1)%Z
        with (Z.of_nat (length knot - 1)) in Hpts by lia.
      replace (0 + float64 (Z.of_nat j)
                   * (float64 (Z.of_nat (length knot - 1))
                      / float64 (Z.of_nat (length knot - 1))))
        with (float64 (Z.of_nat j)) in Hpts
        by (field; apply Hnz; lia).
      subst s. rewrite F0_at_knot in Hpts by lia. by injection Hpts.
    + by rewrite !lookup_ge_None_2 by lia.
  - intros n Hn2.
    destruct (Polygonize_from_spec s
                (float64 (Z.of_nat (length (spline s))) / float64 (n - 1))
                (Z.to_nat n) ltac:(lia) 0 NewPolygon)
      as (pts & Epts & Hl & Hpts).
    unfold Polygonize. cbv zeta. rewrite Epts. cbn [NewPolygon app].
    exists pts. split_and!; try done.
    + rewrite list_lookup_lookup_total_lt by lia. f_equal.
      specialize (Hpts 0%nat ltac:(lia)).
      change (Z.of_nat 0) with 0%Z in Hpts. rewrite float64_0 in Hpts.
      match type of Hpts with
      | F0 _ ?u = _ => replace u with (float64 (Z.of_nat 0)) in Hpts
          by (change (Z.of_nat 0) with 0%Z; rewrite float64_0; ring)
      end.
      subst s. rewrite F0_at_knot in Hpts by lia. by injection Hpts.
    + rewrite list_lookup_lookup_total_lt by lia. f_equal.
      specialize (Hpts (Z.to_nat n - 1)%nat ltac:(lia)).
      rewrite Hlen in Hpts.
      replace (n - 1)%Z with (Z.of_nat (Z.to_nat n - 1)) in Hpts by lia.
      match type of Hpts with
      | F0 _ ?u = _ =>
          replace u with (float64 (Z.of_nat (length knot - 1))) in Hpts
            by (field; apply Hnz; lia)
      end.
      subst s. rewrite F0_at_knot in Hpts by lia. by injection Hpts.
Qed.
End PolygonOfFit.

Lemma Polygonize_fitted_witness :
  let knot := [V2.mk 0 0; V2.mk 1 3; V2.mk 2 2] in
  ∃ s, CubicSpline2D (λ _ _ _, []) knot = Ok s
    ∧ Polygonize s (Z.of_nat (length knot)) = Ok knot
    ∧ ∀ n, (2 ≤ n)%Z →
        ∃ pts, Polygonize s n = Ok pts
          ∧ length pts = Z.to_nat n
          ∧ pts !! 0%nat = Some (knot !!! 0%nat)
          ∧ pts !! (Z.to_nat n - 1)%nat = Some (knot !!! (length knot - 1)%nat).
Proof.
  intros knot. apply (Polygonize_fitted (λ _ _ _, []) knot). simpl. lia.
Defined.

(** ** The bounding box *)

Lemma Qcmin_le (a b : Qc) : Qcmin a b ≤ a ∧ Qcmin a b ≤ b.
Proof.
  unfold Qcmin. case_decide as H; split; try done.
  apply Qclt_le_weak. by apply Qcnot_le_lt.
Qed.

Lemma Qcmax_ge (a b : Qc) : a ≤ Qcmax a b ∧ b ≤ Qcmax a b.
Proof.
  unfold Qcmax. case_decide as H; split; try done.
  apply Qclt_le_weak. by apply Qcnot_le_lt.
Qed.

Lemma foldl_Min_le (l : list V2.t) : ∀ acc v,
  v = acc ∨ v ∈ l →
  V2.X (foldl V2.Min acc l) ≤ V2.X v ∧ V2.Y (foldl V2.Min acc l) ≤ V2.Y v.
Proof.
  induction l as [|u l IH]; intros acc v Hv; cbn [foldl].
  - destruct Hv as [->|Hin]; [done|]. by apply elem_of_nil in Hin.
  - destruct (IH (V2.Min acc u) (V2.Min acc u) (or_introl eq_refl)) as [Hx Hy].
    destruct (Qcmin_le (V2.X acc) (V2.X u)) as [Hxa Hxu].
    destruct (Qcmin_le (V2.Y acc) (V2.Y u)) as [Hya Hyu].
    destruct Hv as [->|[->|Hin]%elem_of_cons].
    + split; [by trans (V2.X (V2.Min acc u))|by trans (V2.Y (V2.Min acc u))].
    + split; [by trans (V2.X (V2.Min acc u))|by trans (V2.Y (V2.Min acc u))].
    + apply IH. by right.
Qed.

Lemma foldl_Max_ge (l : list V2.t) : ∀ acc v,
  v = acc ∨ v ∈ l →
  V2.X v ≤ V2.X (foldl V2.Max acc l) ∧ V2.Y v ≤ V2.Y (foldl V2.Max acc l).
Proof.
  induction l as [|u l IH]; intros acc v Hv; cbn [foldl].
  - destruct Hv as [->|Hin]; [done|]. by apply elem_of_nil in Hin.
  - destruct (IH (V2.Max acc u) (V2.Max acc u) (or_introl eq_refl)) as [Hx Hy].
    destruct (Qcmax_ge (V2.X acc) (V2.X u)) as [Hxa Hxu].
    destruct (Qcmax_ge (V2.Y acc) (V2.Y u)) as [Hya Hyu].
    destruct Hv as [->|[->|Hin]%elem_of_cons].
    + split; [by trans (V2.X (V2.Max acc u))|by trans (V2.Y (V2.Max acc u))].
    + split; [by trans (V2.X (V2.Max acc u))|by trans (V2.Y (V2.Max acc u))].
    + apply IH. by right.
Qed.

Lemma V2Set_contains (p : list V2.t) (v : V2.t) :
  v ∈ p → Box2_contains {| Min := V2Set_Min p; Max := V2Set_Max p |} v.
Proof.
  intros Hv. unfold Box2_contains, V2Set_Min, V2Set_Max. cbn [Min Max].
  destruct (foldl_Min_le p (p !!! 0%nat) v (or_intror Hv)) as [??].
  destruct (foldl_Max_ge p (p !!! 0%nat) v (or_intror Hv)) as [??].
  done.
Qed.

Lemma Extend_contains (a b : Box2) (v : V2.t) :
  Box2_contains a v ∨ Box2_contains b v → Box2_contains (Extend a b) v.
Proof.
  unfold Box2_contains, Extend, V2.Min, V2.Max. cbn [Min Max V2.X V2.Y].
  destruct (Qcmin_le (V2.X (Min a)) (V2.X (Min b))) as [??].
  destruct (Qcmin_le (V2.Y (Min a)) (V2.Y (Min b))) as [??].
  destruct (Qcmax_ge (V2.X (Max a)) (V2.X (Max b))) as [??].
  destruct (Qcmax_ge (V2.Y (Max a)) (V2.Y (Max b))) as [??].
  intros [(?&?&?&?)|(?&?&?&?)]; split_and!; eauto 3 using Qcle_trans.
Qed.

Section BoundingBoxes.
Variable quadratic : Qc → Qc → Qc → list Qc.

Lemma Spline_BoundingBox_contains (seg : CubicSpline) (v : V2.t) :
  v = p0 seg ∨ v = p1 seg
  ∨ (∃ t, (t ∈ f1_zeroes quadratic (px seg) ∨ t ∈ f1_zeroes quadratic (py seg))
          ∧ v = Spline.f0 seg (Clamp t 0 1)) →
  Box2_contains (Spline_BoundingBox quadratic seg) v.
Proof.
  intros Hv. unfold Spline_BoundingBox. apply V2Set_contains.
  rewrite !elem_of_app, !elem_of_cons, !list_elem_of_fmap.
  destruct Hv as [->|[->|(t & [Ht|Ht] & ->)]]; eauto 10.
Qed.

Lemma foldl_Extend_contains (segs : list CubicSpline) : ∀ acc v,
  Box2_contains acc v
  ∨ (∃ seg, seg ∈ segs ∧ Box2_contains (Spline_BoundingBox quadratic seg) v) →
  Box2_contains
    (foldl (λ acc seg, Extend acc (Spline_BoundingBox quadratic seg)) acc segs)
    v.
Proof.
  induction segs as [|seg segs IH]; intros acc v Hv; cbn [foldl].
  - destruct Hv as [?|(seg & Hin & _)]; [done|]. by apply elem_of_nil in Hin.
  - apply IH. destruct Hv as [Ha|(seg' & [->|Hin]%elem_of_cons & Hc)].
    + left. apply Extend_contains. by left.
    + left. apply Extend_contains. by right.
    + right. eauto.
Qed.

Lemma CubicSpline2D_bb (knot : list V2.t) (s : CubicSplineSDF2) :
  CubicSpline2D quadratic knot = Ok s →
  bb s = foldl (λ acc seg, Extend acc (Spline_BoundingBox quadratic seg))
           (Spline_BoundingBox quadratic (spline s !!! 0%nat))
           (drop 1 (spline s)).
Proof.
  unfold CubicSpline2D. case_decide; [done|].
  destruct (interior_rows _ _ _ _ _) as [[m dx] dy].
  repeat (match goal with
          | |- context [TriDiagonal ?u ?v] => destruct (TriDiagonal u v)
          end; cbn [mbind result_bind]); try done.
  by intros [= <-].
Qed.

Lemma bb_contains_segment (knot : list V2.t) (s : CubicSplineSDF2)
    (seg : CubicSpline) (v : V2.t) :
  CubicSpline2D quadratic knot = Ok s → seg ∈ spline s →
  Box2_contains (Spline_BoundingBox quadratic seg) v →
  Box2_contains (BoundingBox s) v.
Proof.
  intros E Hseg Hc. unfold BoundingBox. rewrite (CubicSpline2D_bb knot s E).
  apply foldl_Extend_contains.
  destruct (spline s) as [|seg0 segs]; [by apply elem_of_nil in Hseg|].
  cbn [drop]. change ((seg0 :: segs) !!! 0%nat) with seg0.
  apply elem_of_cons in Hseg as [->|Hin]; [by left|right; eauto].
Qed.

(** X13.  The bounding box of the fitted curve contains every knot, and
    the point of the curve at every critical parameter that [quadratic]
    reports for a segment, clamped to [0, 1]; this holds whatever
    [quadratic] returns. *)
Theorem BoundingBox_contains (knot : list V2.t) :
  (2 ≤ length knot)%nat →
  ∃ s, CubicSpline2D quadratic knot = Ok s
    ∧ (∀ i, (i < length knot)%nat →
         Box2_contains (BoundingBox s) (knot !!! i))
    ∧ (∀ i t, (i < length knot - 1)%nat →
         t ∈ f1_zeroes quadratic (px (spline s !!! i))
         ∨ t ∈ f1_zeroes quadratic (py (spline s !!! i)) →
         Box2_contains (BoundingBox s)
           (Spline.f0 (spline s !!! i) (Clamp t 0 1))).
Proof.
  intros Hn.
  destruct (CubicSpline2D_fitted quadratic knot Hn) as (xx & xy & box & _ & _ & E).
  eexists. split; [exact E|].
  set (s := {| spline := _; bb := box |}) in *.
  assert (Hseg : ∀ i, (i < length knot - 1)%nat →
            spline s !!! i ∈ spline s
            ∧ spline s !!! i = segment_of knot xx xy i).
  { intros i Hi. split.
    - apply list_elem_of_lookup. exists i.
      apply list_lookup_lookup_total_lt. cbn [s spline].
      rewrite length_segments. lia.
    - by apply lookup_total_segments. }
  split.
  - intros i Hi.
    destruct (decide (i = length knot - 1)%nat) as [->|Hne].
    + destruct (Hseg (length knot - 2)%nat ltac:(lia)) as [Hin Hs].
      eapply bb_contains_segment; [exact E|exact Hin|].
      apply Spline_BoundingBox_contains. right. left.
      rewrite Hs. cbn [segment_of p1]. f_equal. lia.
    + destruct (Hseg i ltac:(lia)) as [Hin Hs].
      eapply bb_contains_segment; [exact E|exact Hin|].
      apply Spline_BoundingBox_contains. left.
      rewrite Hs. done.
  - intros i t Hi Ht.
    destruct (Hseg i Hi) as [Hin _].
    eapply bb_contains_segment; [exact E|exact Hin|].
    apply Spline_BoundingBox_contains. right. right. eauto.
Qed.
End BoundingBoxes.

Lemma BoundingBox_contains_witness :
  let knot := [V2.mk 0 0; V2.mk 1 3; V2.mk 2 2] in
  let quadratic := λ _ _ _ : Qc, [Q2Qc (1 # 2); 2] in
  ∃ s, CubicSpline2D quadratic knot = Ok s
    ∧ (∀ i, (i < length knot)%nat →
         Box2_contains (BoundingBox s) (knot !!! i))
    ∧ (∀ i t, (i < length knot - 1)%nat →
         t ∈ f1_zeroes quadratic (px (spline s !!! i))
         ∨ t ∈ f1_zeroes quadratic (py (spline s !!! i)) →
         Box2_contains (BoundingBox s)
           (Spline.f0 (spline s !!! i) (Clamp t 0 1))).
Proof.
  intros knot quadratic. apply (BoundingBox_contains quadratic knot). simpl. lia.
Defined.

(** ** The curve beyond its ends, and shifted knots *)

Section MoreOnTheFit.
Variable quadratic : Qc → Qc → Qc → list Qc.


Lemma shifted_natural_system (coord : V2.t → Qc) (knot knot' : list V2.t)
    (q : Qc) (D : list Qc) :
  length knot' = length knot →
  (∀ i, (i < length knot)%nat → coord (knot' !!! i) = coord (knot !!! i) + q) →
  (2 ≤ length knot)%nat →
  natural_system coord knot D → natural_system coord knot' D.
Proof.
  intros Hlen Hk Hn (HD & H0 & Hin & Hl).
  unfold natural_system. rewrite Hlen. split_and!.
  - done.
  - rewrite H0, !Hk by lia. ring.
  - intros i Hi. rewrite (Hin i Hi), !Hk by lia. ring.
  - rewrite Hl, !Hk by lia. ring.
Qed.

(** X15.  The fit commutes with translation: moving every knot by the
    same vector [q] moves the constant coefficient of every segment by
    [q] and leaves the coefficients [b], [c], [d] as they are. *)
Theorem CubicSpline2D_translate (knot : list V2.t) (q : V2.t) :
  (2 ≤ length knot)%nat →
  ∃ s s',
    CubicSpline2D quadratic knot = Ok s
    ∧ CubicSpline2D quadratic
        ((λ k, V2.mk (V2.X k + V2.X q) (V2.Y k + V2.Y q)) <$> knot) = Ok s'
    ∧ length (spline s') = length (spline s)
    ∧ ∀ i, (i < length knot - 1)%nat →
        px (spline s' !!! i)
        = mkPoly (a (px (spline s !!! i)) + V2.X q) (b (px (spline s !!! i)))
                 (c (px (spline s !!! i))) (d (px (spline s !!! i)))
        ∧ py (spline s' !!! i)
          = mkPoly (a (py (spline s !!! i)) + V2.Y q) (b (py (spline s !!! i)))
                   (c (py (spline s !!! i))) (d (py (spline s !!! i))).
Proof.
  intros Hn.
  set (knot' := (λ k, V2.mk (V2.X k + V2.X q) (V2.Y k + V2.Y q)) <$> knot).
  assert (Hlen : length knot' = length knot) by apply length_fmap.
  assert (Hk : ∀ i, (i < length knot)%nat →
            knot' !!! i = V2.mk (V2.X (knot !!! i) + V2.X q)
                                (V2.Y (knot !!! i) + V2.Y q)).
  { intros i Hi. apply list_lookup_total_correct.
    unfold knot'. rewrite list_lookup_fmap.
    by rewrite (list_lookup_lookup_total_lt knot i Hi). }
  destruct (CubicSpline2D_fitted quadratic knot Hn)
    as (xx & xy & box & Hx & Hy & E).
  destruct (CubicSpline2D_solutions quadratic knot' xx xy) as [box' E'].
  { lia. }
  { apply (shifted_natural_system V2.X knot knot' (V2.X q)); try done.
    intros i Hi. by rewrite Hk. }
  { apply (shifted_natural_system V2.Y knot knot' (V2.Y q)); try done.
    intros i Hi. by rewrite Hk. }
  eexists _, _. split; [exact E|]. split; [exact E'|]. cbn [spline].
  split; [by rewrite !length_segments, Hlen|].
  intros i Hi. rewrite Hlen. rewrite !lookup_total_segments by lia.
  unfold segment_of. cbn [px py]. rewrite !Hk by lia. cbn [V2.X V2.Y].
  unfold Poly.Set_. cbn [a b c d]. split; f_equal; ring.
Qed.
End MoreOnTheFit.


Lemma CubicSpline2D_translate_witness :
  let knot := [V2.mk 0 0; V2.mk 1 3; V2.mk 2 2] in
  let q := V2.mk 3 (- 1) in
  ∃ s s',
    CubicSpline2D (λ _ _ _, []) knot = Ok s
    ∧ CubicSpline2D (λ _ _ _, [])
        ((λ k, V2.mk (V2.X k + V2.X q) (V2.Y k + V2.Y q)) <$> knot) = Ok s'
    ∧ length (spline s') = length (spline s)
    ∧ ∀ i, (i < length knot - 1)%nat →
        px (spline s' !!! i)
        = mkPoly (a (px (spline s !!! i)) + V2.X q) (b (px (spline s !!! i)))
                 (c (px (spline s !!! i))) (d (px (spline s !!! i)))
        ∧ py (spline s' !!! i)
          = mkPoly (a (py (spline s !!! i)) + V2.Y q) (b (py (spline s !!! i)))
                   (c (py (spline s !!! i))) (d (py (spline s !!! i))).
Proof.
  intros knot q. apply (CubicSpline2D_translate (λ _ _ _, []) knot q).
  simpl. lia.
Defined.

(** * Further properties of the renderer *)

(** ** Batches, snapshots and cancellation *)

Lemma div_mod_batch (p : nat) :
  (p = 100 * (p `div` pixelBatch) + p `mod` pixelBatch
   ∧ p `mod` pixelBatch < 100)%nat.
Proof.
  unfold pixelBatch.
  split; [apply Nat.div_mod_eq|apply Nat.mod_upper_bound; lia].
Qed.

Section Passes.
Context {SDF3 RendererState M44 : Type}.
Variable camera : RendererState → nat * nat → V3.t * V3.t * M44 * V2.t.
Implicit Types (r : @renderer3 SDF3) (e : @pixelRender M44).
Implicit Types (jobResults : list (@pixelRender M44)).

Lemma pixelLoop_quiet ctx partialRender jobResults :
  ∀ pixelNum fullRender sends,
  (∀ c, (pixelNum < c ≤ pixelNum + length jobResults)%nat →
        (c `mod` pixelBatch = 0)%nat → ctx c = None) →
  pixelLoop ctx partialRender jobResults pixelNum fullRender sends
  = (foldl write_result fullRender jobResults,
     (sends + if decide (partialRender ≠ ChanNil)
              then (pixelNum + length jobResults) `div` pixelBatch
                   - pixelNum `div` pixelBatch
              else 0)%nat,
     None).
Proof.
  induction jobResults as [|e jobResults IH];
    intros pixelNum fullRender sends Hctx; cbn [pixelLoop foldl length] in *.
  - rewrite Nat.add_0_r, Nat.sub_diag. by case_decide; rewrite Nat.add_0_r.
  - pose proof (div_mod_batch pixelNum) as Hp.
    pose proof (div_mod_batch (S pixelNum)) as HSp.
    pose proof (div_mod_batch (pixelNum + S (length jobResults))) as Hend.
    fold (write_result fullRender e).
    specialize (IH (S pixelNum) (write_result fullRender e)).
    replace (S pixelNum + length jobResults)%nat
      with (pixelNum + S (length jobResults))%nat in IH by lia.
    destruct (decide (S pixelNum `mod` pixelBatch = 0)%nat) as [Hbatch|Hbatch].
    + rewrite (Hctx (S pixelNum) ltac:(lia) Hbatch).
      rewrite IH by (intros c Hc; apply Hctx; lia).
      do 2 f_equal. destruct (decide (partialRender ≠ ChanNil)); lia.
    + rewrite IH by (intros c Hc; apply Hctx; lia).
      do 2 f_equal. destruct (decide (partialRender ≠ ChanNil)); lia.
Qed.

Lemma pixelLoop_cancel ctx partialRender jobResults (err : error) (c : nat) :
  ∀ pixelNum fullRender sends,
  (pixelNum < c ≤ pixelNum + length jobResults)%nat →
  (c `mod` pixelBatch = 0)%nat → ctx c = Some err →
  (∀ c', (pixelNum < c' < c)%nat → (c' `mod` pixelBatch = 0)%nat →
         ctx c' = None) →
  pixelLoop ctx partialRender jobResults pixelNum fullRender sends
  = (foldl write_result fullRender (take (c - pixelNum) jobResults),
     (sends + if decide (partialRender ≠ ChanNil)
              then c `div` pixelBatch - pixelNum `div` pixelBatch - 1
              else 0)%nat,
     Some err).
Proof.
  induction jobResults as [|e jobResults IH];
    intros pixelNum fullRender sends Hc Hmod Herr Hbefore;
    cbn [pixelLoop length] in *; [lia|].
  pose proof (div_mod_batch pixelNum) as Hp.
  pose proof (div_mod_batch (S pixelNum)) as HSp.
  pose proof (div_mod_batch c) as Hcb.
  fold (write_result fullRender e).
  destruct (decide (S pixelNum = c)) as [<-|Hne].
  - rewrite decide_True by done. rewrite Herr.
    replace (S pixelNum - pixelNum)%nat with 1%nat by lia.
    cbn [take foldl]. do 2 f_equal.
    destruct (decide (partialRender ≠ ChanNil)); lia.
  - replace (c - pixelNum)%nat with (S (c - S pixelNum)) by lia.
    cbn [take foldl].
    specialize (IH (S pixelNum) (write_result fullRender e)).
    destruct (decide (S pixelNum `mod` pixelBatch = 0)%nat) as [Hbatch|Hbatch].
    + rewrite (Hbefore (S pixelNum) ltac:(lia) Hbatch).
      rewrite IH; [|lia|done|done|intros c' Hc'; apply Hbefore; lia].
      do 2 f_equal. destruct (decide (partialRender ≠ ChanNil)); lia.
    + rewrite IH; [|lia|done|done|intros c' Hc'; apply Hbefore; lia].
      do 2 f_equal. destruct (decide (partialRender ≠ ChanNil)); lia.
Qed.

(** X16.  A pass in which no cancellation check fires writes every
    result, in the order of arrival, sends one snapshot for every full
    batch of [pixelBatch] results when the channel is not nil (none when
    it is), and ends with a nil error after closing the channel. *)
Theorem Render_completes rnd sched r ctx (state : RendererState)
    partialRender fullRender :
  let r' := updatePixelsRand rnd r (image.W fullRender * image.H fullRender) in
  let arrived :=
    sched (make_job camera state (image.W fullRender, image.H fullRender)
           <$> pixelsRand r') in
  (∀ c, (0 < c ≤ length arrived)%nat → (c `mod` pixelBatch = 0)%nat →
        ctx c = None) →
  raster (Render camera rnd sched r ctx state partialRender fullRender)
  = foldl write_result (init_raster fullRender) arrived
  ∧ sent (Render camera rnd sched r ctx state partialRender fullRender)
    = (if decide (partialRender ≠ ChanNil)
       then length arrived `div` pixelBatch else 0)%nat
  ∧ returned (Render camera rnd sched r ctx state partialRender fullRender)
    = (_ ← close partialRender; Ok None).
Proof.
  intros r' arrived Hctx. rewrite Render_unfold. cbv zeta.
  fold r' arrived. rewrite pixelLoop_quiet by done.
  cbn [raster sent returned fst snd]. split_and!; try done.
  case_decide; [|done].
  by rewrite Nat.add_0_l, Nat.Div0.div_0_l, Nat.sub_0_r.
Qed.

(** X17.  Cancellation is looked at only after every [pixelBatch]-th
    result: a pass with fewer results than that is never cancelled,
    whatever the context says, writes all its results and sends no
    snapshot. *)
Theorem Render_small_pass rnd sched r ctx (state : RendererState)
    partialRender fullRender :
  let r' := updatePixelsRand rnd r (image.W fullRender * image.H fullRender) in
  let arrived :=
    sched (make_job camera state (image.W fullRender, image.H fullRender)
           <$> pixelsRand r') in
  (length arrived < pixelBatch)%nat →
  raster (Render camera rnd sched r ctx state partialRender fullRender)
  = foldl write_result (init_raster fullRender) arrived
  ∧ sent (Render camera rnd sched r ctx state partialRender fullRender) = 0%nat
  ∧ returned (Render camera rnd sched r ctx state partialRender fullRender)
    = (_ ← close partialRender; Ok None).
Proof.
  intros r' arrived Hsmall. rewrite Render_unfold. cbv zeta.
  fold r' arrived. rewrite pixelLoop_quiet.
  - cbn [raster sent returned fst snd]. split_and!; try done.
    case_decide; [|done].
    rewrite Nat.add_0_l, Nat.Div0.div_0_l, Nat.sub_0_r.
    by apply Nat.div_small.
  - intros c Hc Hmod. pose proof (div_mod_batch c) as Hcb.
    unfold pixelBatch in *. lia.
Qed.

(** X18.  When the first cancellation check that fires is the one after
    [c] results ([c] a multiple of [pixelBatch]), the pass has written
    exactly the first [c] results, has sent a snapshot for every earlier
    batch but not for this one, and returns the error of the context
    after closing the channel. *)
Theorem Render_cancelled rnd sched r ctx (state : RendererState)
    partialRender fullRender (err : error) (c : nat) :
  let r' := updatePixelsRand rnd r (image.W fullRender * image.H fullRender) in
  let arrived :=
    sched (make_job camera state (image.W fullRender, image.H fullRender)
           <$> pixelsRand r') in
  (0 < c ≤ length arrived)%nat → (c `mod` pixelBatch = 0)%nat →
  ctx c = Some err →
  (∀ c', (0 < c' < c)%nat → (c' `mod` pixelBatch = 0)%nat → ctx c' = None) →
  raster (Render camera rnd sched r ctx state partialRender fullRender)
  = foldl write_result (init_raster fullRender) (take c arrived)
  ∧ sent (Render camera rnd sched r ctx state partialRender fullRender)
    = (if decide (partialRender ≠ ChanNil)
       then c `div` pixelBatch - 1 else 0)%nat
  ∧ returned (Render camera rnd sched r ctx state partialRender fullRender)
    = (_ ← close partialRender; Ok (Some err)).
Proof.
  intros r' arrived Hc Hmod Herr Hbefore. rewrite Render_unfold. cbv zeta.
  fold r' arrived.
  rewrite (pixelLoop_cancel ctx partialRender arrived err c) by done.
  cbn [raster sent returned fst snd]. rewrite Nat.sub_0_r.
  split_and!; try done.
  case_decide; [|done]. by rewrite Nat.Div0.div_0_l, Nat.sub_0_r.
Qed.
End Passes.

Lemma Render_completes_witness :
  let fullRender := image.mk (replicate 24 7%Z) 3 2 in
  let sched := results_of example_castRay (newDevRenderer3 tt) in
  let rnd := λ i, (i + 3)%nat in
  let ctx := λ _ : nat, @None error in
  let r := newDevRenderer3 tt in
  let arrived :=
    sched (make_job example_camera tt (3, 2)%nat
           <$> pixelsRand (updatePixelsRand rnd r (3 * 2))) in
  raster (Render example_camera rnd sched r ctx tt ChanOpen fullRender)
  = foldl write_result (init_raster fullRender) arrived
  ∧ sent (Render example_camera rnd sched r ctx tt ChanOpen fullRender)
    = (if decide (ChanOpen ≠ ChanNil)
       then length arrived `div` pixelBatch else 0)%nat
  ∧ returned (Render example_camera rnd sched r ctx tt ChanOpen fullRender)
    = (_ ← close ChanOpen; Ok None).
Proof.
  intros fullRender sched rnd ctx r arrived.
  apply (Render_completes example_camera rnd sched r ctx tt ChanOpen fullRender).
  intros c Hc Hmod. reflexivity.
Defined.

Lemma Render_small_pass_witness :
  let fullRender := image.mk (replicate 24 7%Z) 3 2 in
  let sched := results_of example_castRay (newDevRenderer3 tt) in
  let rnd := λ i, (i + 3)%nat in
  let ctx := λ _ : nat, Some Canceled in
  let r := newDevRenderer3 tt in
  let arrived :=
    sched (make_job example_camera tt (3, 2)%nat
           <$> pixelsRand (updatePixelsRand rnd r (3 * 2))) in
  raster (Render example_camera rnd sched r ctx tt ChanOpen fullRender)
  = foldl write_result (init_raster fullRender) arrived
  ∧ sent (Render example_camera rnd sched r ctx tt ChanOpen fullRender) = 0%nat
  ∧ returned (Render example_camera rnd sched r ctx tt ChanOpen fullRender)
    = (_ ← close ChanOpen; Ok None).
Proof.
  intros fullRender sched rnd ctx r arrived.
  apply (Render_small_pass example_camera rnd sched r ctx tt ChanOpen fullRender).
  vm_compute. lia.
Defined.

Lemma Render_cancelled_witness :
  let fullRender := image.mk (replicate 800 0%Z) 20 10 in
  let sched := results_of example_castRay (newDevRenderer3 tt) in
  let rnd := λ i, (i + 3)%nat in
  let ctx := λ n : nat, if decide (n = 100%nat) then Some Canceled else None in
  let r := newDevRenderer3 tt in
  let arrived :=
    sched (make_job example_camera tt (20, 10)%nat
           <$> pixelsRand (updatePixelsRand rnd r (20 * 10))) in
  raster (Render example_camera rnd sched r ctx tt ChanOpen fullRender)
  = foldl write_result (init_raster fullRender) (take 100 arrived)
  ∧ sent (Render example_camera rnd sched r ctx tt ChanOpen fullRender)
    = (if decide (ChanOpen ≠ ChanNil)
       then 100 `div` pixelBatch - 1 else 0)%nat
  ∧ returned (Render example_camera rnd sched r ctx tt ChanOpen fullRender)
    = (_ ← close ChanOpen; Ok (Some Canceled)).
Proof.
  intros fullRender sched rnd ctx r arrived.
  apply (Render_cancelled example_camera rnd sched r ctx tt ChanOpen fullRender
           Canceled 100).
  - vm_compute. lia.
  - reflexivity.
  - reflexivity.
  - intros c' Hc' _. unfold ctx. apply decide_False. lia.
Defined.

(** ** One job for every pixel *)

Section Jobs.
Context {SDF3 RendererState M44 : Type}.
Variable camera : RendererState → nat * nat → V3.t * V3.t * M44 * V2.t.

(** X19.  The jobs that the generator queues in a pass, whatever passes
    the renderer has made before, are one job for every pixel of the
    raster: as many jobs as pixels, no pixel twice, every pixel inside the
    raster and every pixel of the raster among them. *)
Theorem jobs_cover_raster (shape : SDF3)
    (history : list ((nat → nat) * (nat * nat)))
    (rnd : nat → nat) (state : RendererState) (w h : nat) :
  let r' := updatePixelsRand rnd (after_passes shape history) (w * h) in
  let jobs := make_job camera state (w, h) <$> pixelsRand r' in
  length jobs = (w * h)%nat
  ∧ NoDup (pixel <$> jobs)
  ∧ ∀ x y, (x, y) ∈ pixel <$> jobs ↔ (x < w)%nat ∧ (y < h)%nat.
Proof.
  intros r' jobs.
  assert (Hperm : pixelsRand r' ≡ₚ seq 0 (w * h))
    by apply updatePixelsRand_Permutation, after_passes_Permutation.
  assert (Hpix : pixel <$> jobs
                 = (λ q, (q `mod` w, q `div` w)%nat) <$> pixelsRand r').
  { unfold jobs. rewrite <-list_fmap_compose. apply list_fmap_ext.
    intros _ q _. apply make_job_pixel. }
  rewrite Hpix. split_and!.
  - unfold jobs. by rewrite length_fmap, (Permutation_length Hperm), length_seq.
  - apply NoDup_fmap_2_strong.
    + intros q q' _ _. apply pixel_index_inj.
    + rewrite Hperm. apply NoDup_seq.
  - intros x y. rewrite list_elem_of_fmap. split.
    + intros (q & [= -> ->] & Hq). rewrite Hperm in Hq.
      apply elem_of_seq in Hq.
      assert (0 < w)%nat by (destruct w; lia).
      split; [apply Nat.mod_upper_bound; lia|].
      apply Nat.Div0.div_lt_upper_bound. lia.
    + intros [Hx Hy]. exists (x + y * w)%nat. split.
      * rewrite Nat.Div0.mod_add, Nat.div_add by lia.
        by rewrite Nat.mod_small, Nat.div_small by lia.
      * rewrite Hperm. apply elem_of_seq. nia.
Qed.
End Jobs.

(** ** The worker pool delivers every result once and never gets stuck *)

Lemma omap_nil_replicate {A} (ws : list (option A)) :
  omap id ws = [] → ws = replicate (length ws) None.
Proof.
  induction ws as [|[x|] ws IH]; simpl; [done|done|].
  intros H. by rewrite <-IH.
Qed.

Lemma omap_cons_lookup {A} (ws : list (option A)) (x : A) (l : list A) :
  omap id ws = x :: l → ∃ i y, ws !! i = Some (Some y).
Proof.
  induction ws as [|[y|] ws IH]; simpl; [done| |].
  - intros _. by exists 0%nat, y.
  - intros H. destruct (IH H) as (i & y & Hi). by exists (S i), y.
Qed.

Section PoolRuns.
Context {SDF3 M44 : Type}.
Variable castRay : SDF3 → @pixelRender M44 → Qc * Z.
Implicit Types (r : @renderer3 SDF3) (jobs order : list (@pixelRender M44)).

Lemma pool_step_workers r (st st' : pool) :
  pool_step castRay r st st' → length (workers st') = length (workers st).
Proof. intros [??????|??????]; cbn [workers]; by rewrite length_insert. Qed.

Lemma pool_flush r (n : nat) : ∀ pend (ws : list (option pixelRender)) out,
  length (omap id ws) = n →
  ∃ out', rtc (pool_step castRay r) (mkPool pend ws out)
            (mkPool pend (replicate (length ws) None) out').
Proof.
  induction n as [|n IH]; intros pend ws out Hn.
  - apply nil_length_inv in Hn. exists out.
    by rewrite <-(omap_nil_replicate ws Hn).
  - destruct (omap id ws) as [|x l] eqn:E; [done|].
    destruct (omap_cons_lookup ws x l E) as (i & y & Hi).
    pose proof (omap_insert_None ws i y Hi) as Hperm.
    apply Permutation_length in Hperm. rewrite E in Hperm.
    cbn [length] in Hperm, Hn.
    destruct (IH pend (<[i := None]> ws) (out ++ [y]) ltac:(lia)) as [out' Hrun].
    rewrite length_insert in Hrun.
    exists out'. eapply rtc_l; [|exact Hrun]. by apply worker_sends.
Qed.

Lemma pool_run_in_order r (numCPU : nat) jobs : ∀ out,
  (1 ≤ numCPU)%nat →
  rtc (pool_step castRay r)
    (mkPool jobs (replicate numCPU None) out)
    (mkPool [] (replicate numCPU None) (out ++ results_of castRay r jobs)).
Proof.
  induction jobs as [|job jobs IH]; intros out Hn.
  - simpl. by rewrite app_nil_r.
  - eapply rtc_l.
    { apply (worker_takes castRay r 0). by apply lookup_replicate_2. }
    eapply rtc_l.
    { apply (worker_sends castRay r 0).
      apply list_lookup_insert_eq. rewrite length_replicate. lia. }
    rewrite list_insert_insert_eq.
    rewrite list_insert_id by by apply lookup_replicate_2.
    specialize (IH (out ++ [set_rendered job (samplePixel castRay r job)]) Hn).
    by rewrite <-app_assoc in IH.
Qed.

(** X20.  Whatever the number of workers and their interleaving, when
    the pool has finished the collector has received the sampled result
    of every job exactly once: the arrival order is a permutation of the
    results of the jobs, so there are as many results as jobs. *)
Theorem pool_exactly_once r (numCPU : nat) jobs order :
  arrival castRay r numCPU jobs order →
  order ≡ₚ results_of castRay r jobs ∧ length order = length jobs.
Proof.
  intros Harr. pose proof (arrival_Permutation castRay r numCPU jobs order Harr) as Hp.
  split; [done|]. rewrite (Permutation_length Hp). unfold results_of.
  by rewrite length_fmap.
Qed.

(** X21.  A pool of at least one worker never gets stuck while the
    collector keeps receiving: from every state it can reach, the
    remaining results can all be delivered and the pool can finish. *)
Theorem pool_drains r (numCPU : nat) jobs (st : pool) :
  (1 ≤ numCPU)%nat →
  rtc (pool_step castRay r) (mkPool jobs (replicate numCPU None) []) st →
  ∃ order, rtc (pool_step castRay r) st
             (mkPool [] (replicate numCPU None) order).
Proof.
  intros Hn Hreach.
  assert (Hlen : length (workers st) = numCPU).
  { eapply (rtc_ind_r (λ st, length (workers st) = numCPU)); [| |exact Hreach].
    - cbn [workers]. apply length_replicate.
    - intros st1 st2 _ Hstep IH. by rewrite (pool_step_workers r _ _ Hstep). }
  destruct st as [pend ws out]. cbn [workers] in Hlen.
  destruct (pool_flush r (length (omap id ws)) pend ws out eq_refl)
    as [out' Hflush].
  rewrite Hlen in Hflush.
  eexists. etrans; [exact Hflush|]. by apply pool_run_in_order.
Qed.
End PoolRuns.

Lemma pool_exactly_once_witness :
  let r := newDevRenderer3 tt in
  let j0 := make_job example_camera tt (3, 2)%nat 0 in
  let j1 := make_job example_camera tt (3, 2)%nat 1 in
  let res := λ job, set_rendered job (samplePixel example_castRay r job) in
  [res j1; res j0] ≡ₚ results_of example_castRay r [j0; j1]
  ∧ length [res j1; res j0] = length [j0; j1].
Proof.
  intros r j0 j1 res.
  apply (pool_exactly_once example_castRay r 2 [j0; j1] [res j1; res j0]).
  unfold arrival.
  eapply rtc_l; [apply (worker_takes example_castRay r 0); reflexivity|].
  eapply rtc_l; [apply (worker_takes example_castRay r 1); reflexivity|].
  eapply rtc_l; [apply (worker_sends example_castRay r 1); reflexivity|].
  eapply rtc_l; [apply (worker_sends example_castRay r 0); reflexivity|].
  apply rtc_refl.
Defined.

Lemma pool_drains_witness :
  let r := newDevRenderer3 tt in
  let j0 := make_job example_camera tt (3, 2)%nat 0 in
  let j1 := make_job example_camera tt (3, 2)%nat 1 in
  let res := λ job, set_rendered job (samplePixel example_castRay r job) in
  ∃ order, rtc (pool_step example_castRay r)
             (mkPool [] [Some (res j0); Some (res j1)] [])
             (mkPool [] (replicate 2 None) order).
Proof.
  intros r j0 j1 res.
  apply (pool_drains example_castRay r 2 [j0; j1]).
  - lia.
  - eapply rtc_l; [apply (worker_takes example_castRay r 0); reflexivity|].
    eapply rtc_l; [apply (worker_takes example_castRay r 1); reflexivity|].
    apply rtc_refl.
Defined.

(** ** The raster during and after a pass *)

(** X22.  The first statement of a pass sets the alpha byte of every
    pixel of a well-formed raster to 255 and changes nothing else: the
    three colour bytes of every pixel and the size of the raster are as
    before. *)
Theorem init_raster_sets_alpha (p : image.RGBA) (q : nat) :
  image.wf p → (q < image.W p * image.H p)%nat →
  image.wf (init_raster p)
  ∧ image.W (init_raster p) = image.W p
  ∧ image.H (init_raster p) = image.H p
  ∧ image.Pix (init_raster p) !! (4 * q + 3)%nat = Some 255%Z
  ∧ ∀ k, (k < 3)%nat →
      image.Pix (init_raster p) !! (4 * q + k)%nat = image.Pix p !! (4 * q + k)%nat.
Proof.
  intros Hwf Hq. destruct (init_raster_alpha p q Hwf Hq) as [Ha Hk].
  split_and!; try done. by apply init_raster_wf.
Qed.

Lemma init_raster_sets_alpha_witness :
  let p := image.mk (replicate 24 7%Z) 3 2 in
  image.wf (init_raster p)
  ∧ image.W (init_raster p) = image.W p
  ∧ image.H (init_raster p) = image.H p
  ∧ image.Pix (init_raster p) !! (4 * 4 + 3)%nat = Some 255%Z
  ∧ ∀ k, (k < 3)%nat →
      image.Pix (init_raster p) !! (4 * 4 + k)%nat = image.Pix p !! (4 * 4 + k)%nat.
Proof.
  intros p. apply (init_raster_sets_alpha p 4).
  - reflexivity.
  - simpl. lia.
Defined.

Section Opaque.
Context {SDF3 RendererState M44 : Type}.
Variable camera : RendererState → nat * nat → V3.t * V3.t * M44 * V2.t.
Variable castRay : SDF3 → @pixelRender M44 → Qc * Z.
Implicit Types (r : @renderer3 SDF3) (e : @pixelRender M44).
Implicit Types (jobResults : list (@pixelRender M44)).

Lemma samplePixel_opaque r (job : @pixelRender M44) :
  color.A (samplePixel castRay r job) = 255%Z.
Proof.
  unfold samplePixel. destruct (castRay (s r) job) as [t steps].
  by repeat case_decide.
Qed.

Lemma write_result_opaque (w h : nat) (p : image.RGBA) e :
  color.A (rendered e) = 255%Z →
  opaque_raster w h p → opaque_raster w h (write_result p e).
Proof.
  intros HA (Hwf & HW & HH & Halpha).
  unfold write_result, image.SetRGBA.
  case_decide as Hin; [|done].
  unfold opaque_raster, image.wf in *. cbn [image.Pix image.W image.H].
  rewrite write_bytes_length. split_and!; try done.
  intros q Hq. unfold image.PixOffset.
  set (x := (pixel e).1) in *. set (y := (pixel e).2) in *.
  rewrite HW, HH in *.
  replace (y * (4 * w) + x * 4)%nat with (4 * (y * w + x))%nat by lia.
  assert (y * w + x < w * h)%nat by nia.
  rewrite write_bytes_lookup by lia.
  case_decide as Hq'; [|by apply Halpha].
  assert (q = y * w + x)%nat as -> by lia.
  replace (4 * (y * w + x) + 3 - 4 * (y * w + x))%nat with 3%nat by lia.
  unfold color.bytes. simpl. by rewrite HA.
Qed.

Lemma foldl_write_opaque (w h : nat) jobResults : ∀ p,
  Forall (λ e, color.A (rendered e) = 255%Z) jobResults →
  opaque_raster w h p → opaque_raster w h (foldl write_result p jobResults).
Proof.
  induction jobResults as [|e jobResults IH]; intros p HF Hp; [done|].
  apply Forall_cons in HF as [He HF]. cbn [foldl].
  apply IH; [done|]. by apply write_result_opaque.
Qed.

Lemma pixelLoop_raster_prefix ctx partialRender jobResults :
  ∀ pixelNum fullRender sends,
  ∃ k, (pixelLoop ctx partialRender jobResults pixelNum fullRender sends).1.1
       = foldl write_result fullRender (take k jobResults).
Proof.
  induction jobResults as [|e jobResults IH];
    intros pixelNum fullRender sends; cbn [pixelLoop].
  - by exists 0%nat.
  - fold (write_result fullRender e).
    destruct (decide (S pixelNum `mod` pixelBatch = 0)%nat) as [Hb|Hb].
    + destruct (ctx (S pixelNum)) as [err|].
      * by exists 1%nat.
      * match goal with
        | |- context [pixelLoop _ _ _ ?n ?f ?k] =>
            destruct (IH n f k) as [k' Hk']
        end.
        exists (S k'). by rewrite Hk'.
    + destruct (IH (S pixelNum) (write_result fullRender e) sends) as [k' Hk'].
      exists (S k'). by rewrite Hk'.
Qed.

(** X23.  At the end of every pass, cancelled or not and whatever the
    order of arrival, the raster has the size it had and every pixel of
    it has alpha 255, provided that the raster was well formed and that
    every result that arrived was sampled by [samplePixel]. *)
Theorem Render_raster_opaque rnd sched r ctx (state : RendererState)
    partialRender fullRender :
  let r' := updatePixelsRand rnd r (image.W fullRender * image.H fullRender) in
  let arrived :=
    sched (make_job camera state (image.W fullRender, image.H fullRender)
           <$> pixelsRand r') in
  image.wf fullRender →
  (∀ e, e ∈ arrived →
     ∃ job, e = set_rendered job (samplePixel castRay r' job)) →
  image.wf (raster (Render camera rnd sched r ctx state partialRender fullRender))
  ∧ image.W (raster (Render camera rnd sched r ctx state partialRender fullRender))
    = image.W fullRender
  ∧ image.H (raster (Render camera rnd sched r ctx state partialRender fullRender))
    = image.H fullRender
  ∧ ∀ q, (q < image.W fullRender * image.H fullRender)%nat →
      image.Pix (raster (Render camera rnd sched r ctx state partialRender
                           fullRender)) !! (4 * q + 3)%nat
      = Some 255%Z.
Proof.
  intros r' arrived Hwf Hsampled. rewrite Render_unfold. cbv zeta.
  fold r' arrived. cbn [raster].
  destruct (pixelLoop_raster_prefix ctx partialRender arrived 0
              (init_raster fullRender) 0) as [k ->].
  apply (foldl_write_opaque (image.W fullRender) (image.H fullRender)).
  - apply Forall_forall. intros e He. apply subseteq_take in He.
    destruct (Hsampled e He) as [job ->]. cbn [set_rendered rendered].
    apply samplePixel_opaque.
  - split_and!; [by apply init_raster_wf|done|done|].
    intros q Hq. by apply init_raster_alpha.
Qed.
End Opaque.

Lemma Render_raster_opaque_witness :
  let fullRender := image.mk (replicate 24 7%Z) 3 2 in
  let rnd := λ i, (i + 3)%nat in
  let r := newDevRenderer3 tt in
  let sched := λ jobs,
    reverse (results_of example_castRay (updatePixelsRand rnd r (3 * 2)) jobs) in
  let ctx := λ _ : nat, Some Canceled in
  let p := Render example_camera rnd sched r ctx tt ChanOpen fullRender in
  image.wf (raster p)
  ∧ image.W (raster p) = 3%nat
  ∧ image.H (raster p) = 2%nat
  ∧ ∀ q, (q < 3 * 2)%nat → image.Pix (raster p) !! (4 * q + 3)%nat = Some 255%Z.
Proof.
  intros fullRender rnd r sched ctx p.
  apply (Render_raster_opaque example_camera example_castRay rnd sched r ctx tt
           ChanOpen fullRender).
  - reflexivity.
  - intros e He. unfold sched in He. rewrite elem_of_reverse in He.
    unfold results_of in He.
    apply list_elem_of_fmap in He as (job & -> & _). by exists job.
Defined.
